(** * skada: subspace-alignment adapters (skada/_subspace.py)

    A shallow embedding of the three adapters of [skada/_subspace.py]
    (Subspace Alignment, Transfer Component Analysis, Transfer Joint
    Matching) and the properties their specification states about them.

    Scalars are IEEE-754 binary64 values, modelled by the Standard Library's
    [spec_float] with [prec = 53] and [emax = 1024]; two-dimensional numpy
    arrays are records holding the column count and the list of rows. *)

From Stdlib Require Import ZArith List Bool Lia PeanoNat Sorted.
From Stdlib Require Import Floats.SpecFloat.
Import ListNotations.

Set Implicit Arguments.

(** ** Binary64 scalars *)

Module F64.

Definition prec : Z := 53.
Definition emax : Z := 1024.

Definition float := spec_float.

Definition add : float -> float -> float := SFadd prec emax.
Definition sub : float -> float -> float := SFsub prec emax.
Definition mul : float -> float -> float := SFmul prec emax.
Definition div : float -> float -> float := SFdiv prec emax.
Definition sqrt : float -> float := SFsqrt prec emax.
Definition abs : float -> float := SFabs.
Definition opp : float -> float := SFopp.
Definition eqb : float -> float -> bool := SFeqb.
Definition ltb : float -> float -> bool := SFltb.
Definition leb : float -> float -> bool := SFleb.

(** Python's [a != b] and [a > b] on floats. *)
Definition neqb (a b : float) : bool := negb (eqb a b).
Definition gtb (a b : float) : bool := ltb b a.

(** Conversion of a Python int to float. *)
Definition of_Z (z : Z) : float := binary_normalize prec emax z 0 false.

Definition zero : float := S754_zero false.
Definition one : float := of_Z 1.
Definition two : float := of_Z 2.

(** A decimal literal [1e-k]: the quotient of two exactly representable
  integers is correctly rounded, as is the parsed literal. *)
Definition pow10_neg (k : nat) : float := div one (of_Z (10 ^ Z.of_nat k)).

Definition is_nan (x : float) : bool :=
match x with S754_nan => true | _ => false end.

Definition is_finite (x : float) : bool :=
match x with S754_zero _ | S754_finite _ _ _ => true | _ => false end.

(** [signed s x]: [x] is not NaN and carries the sign bit [s]. *)
Definition signed (s : bool) (x : float) : Prop :=
match x with
| S754_nan => False
| S754_zero s' | S754_infinity s' | S754_finite s' _ _ => s' = s
end.

End F64.

Import F64.

(** ** Errors raised by the Python code *)

Inductive error : Type :=
  | ValueError_n_components   (* sklearn: n_components out of bounds *)
  | ValueError_empty_input    (* sklearn: array with 0 samples *)
  | ZeroDivisionError         (* Python int division by zero *)
  | LinAlgError               (* numpy / scipy solver failure *)
  | UnboundLocalError.        (* local read before assignment *)

Inductive result (A : Type) : Type :=
  | Ok (a : A)
  | Err (e : error).

Arguments Ok {A} a.
Arguments Err {A} e.

Definition bind {A B : Type} (r : result A) (k : A -> result B) : result B :=
  match r with
  | Ok a => k a
  | Err e => Err e
  end.

Notation "x <- r ;; k" := (bind r (fun x => k))
  (at level 61, r at next level, right associativity).
Notation "' p <- r ;; k" := (bind r (fun p => k))
  (at level 61, p pattern, r at next level, right associativity).

Definition is_ok {A : Type} (r : result A) : bool :=
  match r with Ok _ => true | Err _ => false end.

(** ** numpy arrays

    A one-dimensional array is a list of scalars; a two-dimensional array
    records its column count next to its rows, so that an array with zero
    rows still has a shape [(0, d)]. *)

Notation vector := (list float).

Record ndarray : Type := mk_ndarray {
  ncols : nat;
  rows : list vector
}.

Definition nrows (X : ndarray) : nat := length (rows X).

(** [X[i, j]]; [None] when the index is out of range. *)
Definition entry (X : ndarray) (i j : nat) : option float :=
  match nth_error (rows X) i with
  | Some r => nth_error r j
  | None => None
  end.

(** Sum of a sequence, accumulated left to right from 0.0. *)
Definition fsum (l : vector) : float := fold_left add l zero.

Definition dot (u v : vector) : float :=
  fsum (map (fun p => mul (fst p) (snd p)) (combine u v)).

Definition column (j : nat) (B : ndarray) : vector :=
  map (fun r => nth j r zero) (rows B).

(** [B.T] *)
Definition transpose (B : ndarray) : ndarray :=
  mk_ndarray (nrows B) (map (fun j => column j B) (seq 0 (ncols B))).

(** [r @ B] for a row [r]. *)
Definition vecmat (r : vector) (B : ndarray) : vector :=
  map (fun j => dot r (column j B)) (seq 0 (ncols B)).

(** [A @ B] and [np.dot(A, B)] on two-dimensional arrays. *)
Definition matmul (A B : ndarray) : ndarray :=
  mk_ndarray (ncols B) (map (fun r => vecmat r B) (rows A)).

Definition map2 {A B C : Type} (f : A -> B -> C) (l : list A) (l' : list B)
  : list C :=
  map (fun p => f (fst p) (snd p)) (combine l l').

(** Element-wise [A + B] and [A - B] of equally shaped arrays. *)
Definition np_add (A B : ndarray) : ndarray :=
  mk_ndarray (ncols A) (map2 (map2 add) (rows A) (rows B)).

Definition np_sub (A B : ndarray) : ndarray :=
  mk_ndarray (ncols A) (map2 (map2 sub) (rows A) (rows B)).

(** [c * A] for a scalar [c]. *)
Definition np_scale (c : float) (A : ndarray) : ndarray :=
  mk_ndarray (ncols A) (map (map (mul c)) (rows A)).

(** [A / c] for a scalar [c]. *)
Definition np_div_scalar (A : ndarray) (c : float) : ndarray :=
  mk_ndarray (ncols A) (map (map (fun x => div x c)) (rows A)).

(** [np.ones((n, m))], [np.identity(n)] / [np.eye(n)], [np.diag(v)]. *)
Definition np_ones (n m : nat) : ndarray :=
  mk_ndarray m (repeat (repeat one m) n).

Definition np_diag (v : vector) : ndarray :=
  let n := length v in
  mk_ndarray n
    (map (fun i => map (fun j => if Nat.eqb i j then nth i v zero else zero)
                       (seq 0 n))
         (seq 0 n)).

Definition np_identity (n : nat) : ndarray := np_diag (repeat one n).

(** [np.block([[A, B], [C, D]])] *)
Definition np_block (A B C D : ndarray) : ndarray :=
  mk_ndarray (ncols A + ncols B)
    (map2 (@app float) (rows A) (rows B) ++ map2 (@app float) (rows C) (rows D)).

(** [np.concatenate((A, B), axis=1)] *)
Definition np_concatenate_axis1 (A B : ndarray) : ndarray :=
  mk_ndarray (ncols A + ncols B) (map2 (@app float) (rows A) (rows B)).

(** [A[:n]] *)
Definition take_rows (n : nat) (A : ndarray) : ndarray :=
  mk_ndarray (ncols A) (firstn n (rows A)).

(** Boolean-mask selection [v[mask]] on a sequence. *)
Fixpoint bool_index {A : Type} (mask : list bool) (l : list A) : list A :=
  match mask, l with
  | b :: mask', x :: l' =>
      if b then x :: bool_index mask' l' else bool_index mask' l'
  | _, _ => []
  end.

(** [X[mask]] on the rows of a two-dimensional array. *)
Definition mask_rows (mask : list bool) (X : ndarray) : ndarray :=
  mk_ndarray (ncols X) (bool_index mask (rows X)).

(** [A[:, indices]] *)
Definition take_cols (indices : list nat) (A : ndarray) : ndarray :=
  mk_ndarray (length indices)
    (map (fun r => map (fun j => nth j r zero) indices) (rows A)).

(** [v[indices]] *)
Definition take (indices : list nat) (v : vector) : vector :=
  map (fun j => nth j v zero) indices.

(** [np.trace(A)] *)
Definition np_trace (A : ndarray) : float :=
  fsum (map (fun i => nth i (nth i (rows A) []) zero)
            (seq 0 (Nat.min (nrows A) (ncols A)))).

(** [np.linalg.norm(r)] of a sequence: the root of the sum of squares. *)
Definition norm2 (r : vector) : float :=
  sqrt (fsum (map (fun x => mul x x) r)).

(** [np.linalg.norm(A)] and [np.linalg.norm(A, ord="fro")]. *)
Definition norm_fro (A : ndarray) : float := norm2 (concat (rows A)).

(** [np.linalg.norm(A, axis=1)] *)
Definition norm_axis1 (A : ndarray) : vector := map norm2 (rows A).

(** [np.array_equal(A, B)]: same shape and all entries equal under [==]
    (so an array holding NaN is not equal to itself). *)
Definition vector_equal (u v : vector) : bool :=
  Nat.eqb (length u) (length v) && forallb (fun p => eqb (fst p) (snd p)) (combine u v).

Definition array_equal (A B : ndarray) : bool :=
  Nat.eqb (nrows A) (nrows B) && Nat.eqb (ncols A) (ncols B)
  && forallb (fun p => vector_equal (fst p) (snd p)) (combine (rows A) (rows B)).

(** Well-shaped arrays: every row has [ncols] entries. *)
Definition well_shaped (X : ndarray) : Prop :=
  Forall (fun r => length r = ncols X) (rows X).

Definition no_nan (X : ndarray) : Prop :=
  Forall (Forall (fun x => is_nan x = false)) (rows X).

(** ** Domain partition helpers (skada.utils)

    [skada/utils.py] is not among the sources at hand; its helpers are
    modelled from the specification's description of the domain partition
    adapter. *)

(** Modelled from the spec: [extract_source_indices], the boolean
    source-membership mask over rows.  A row belongs to a source domain when
    its domain label is non-negative and to a target domain otherwise. *)
Definition extract_source_indices (sample_domain : list Z) : list bool :=
  map (fun d => (0 <=? d)%Z) sample_domain.

(** Modelled from the spec: [check_X_domain], input validation that hands
    the array and the labels back.  [adapt] calls it with the same flags as
    [fit] and then handles blocks with zero rows, so it rejects neither. *)
Definition check_X_domain (X : ndarray) (sample_domain : list Z)
  : ndarray * list Z :=
  (X, sample_domain).

(** Modelled from the spec: [source_target_split], which splits a combined
    matrix into source and target row blocks by domain label, keeping the
    relative order of the rows of each block. *)
Definition source_target_split (X : ndarray) (sample_domain : list Z)
  : ndarray * ndarray :=
  let mask := extract_source_indices sample_domain in
  (mask_rows mask X, mask_rows (map negb mask) X).

Fixpoint merge_rows (mask : list bool) (src tgt : list vector) : list vector :=
  match mask with
  | [] => []
  | true :: mask' =>
      match src with
      | r :: src' => r :: merge_rows mask' src' tgt
      | [] => merge_rows mask' [] tgt
      end
  | false :: mask' =>
      match tgt with
      | r :: tgt' => r :: merge_rows mask' src tgt'
      | [] => merge_rows mask' src []
      end
  end.

(** Modelled from the spec: [source_target_merge], which puts the rows of
    the two blocks back at the positions their labels had in the combined
    input. *)
Definition source_target_merge (X_source X_target : ndarray)
    (sample_domain : list Z) : ndarray :=
  mk_ndarray
    (match nrows X_source with 0 => ncols X_target | S _ => ncols X_source end)
    (merge_rows (extract_source_indices sample_domain)
                (rows X_source) (rows X_target)).

(** ** SubspaceAlignmentAdapter *)

Module SubspaceAlignmentAdapter.

Section Adapter.

(** [sklearn.decomposition.PCA] is an external library: the fitted object,
    the decomposition and its [transform] are parameters; the parameter
    validation of [PCA.fit] is written out below.  [rng] is the
    [RandomState] both fits draw from. *)
Variable PCA : Type.
Variable rng : Type.
Variable pca_decompose : nat -> rng -> ndarray -> PCA * rng.
Variable pca_transform : PCA -> ndarray -> ndarray.
Variable components_ : PCA -> ndarray.

(** [PCA(n_components, random_state=rs).fit(X)]: sklearn rejects an array
    without samples, and an [n_components] that is not between 0 and
    [min(n_samples, n_features)] of the array it is fitted on. *)
Definition PCA_fit (n_components : nat) (rs : rng) (X : ndarray)
  : result (PCA * rng) :=
  if Nat.eqb (nrows X) 0 then Err ValueError_empty_input
  else if Nat.ltb (Nat.min (nrows X) (ncols X)) n_components
       then Err ValueError_n_components
       else Ok (pca_decompose n_components rs X).

(** Constructor arguments of the adapter. *)
Record params : Type := mk_params {
  n_components : option nat;
  random_state : rng
}.

(** Attributes set by [fit]. *)
Record fitted : Type := mk_fitted {
  pca_source_ : PCA;
  pca_target_ : PCA;
  n_components_ : nat;
  M_ : ndarray
}.

(** [SubspaceAlignmentAdapter.fit] *)
Definition fit (self : params) (X : ndarray) (sample_domain : list Z)
  : result fitted :=
  let '(X, sample_domain) := check_X_domain X sample_domain in
  let '(X_source, X_target) := source_target_split X sample_domain in
  let n_components :=
    match n_components self with
    | None => Nat.min (nrows X) (ncols X)
    | Some k => k
    end in
  let random_state_ := random_state self in
  '(pca_s, rs1) <- PCA_fit n_components random_state_ X_source ;;
  '(pca_t, _) <- PCA_fit n_components rs1 X_target ;;
  Ok (mk_fitted pca_s pca_t n_components
        (matmul (components_ pca_s) (transpose (components_ pca_t)))).

(** The two blocks [adapt] hands to [source_target_merge]. *)
Definition adapt_blocks (st : fitted) (X : ndarray)
    (sample_domain : list Z) : ndarray * ndarray :=
  let '(X, sample_domain) := check_X_domain X sample_domain in
  let '(X_source, X_target) := source_target_split X sample_domain in
  let X_source :=
    match nrows X_source with
    | 0 => X_source
    | S _ => matmul (pca_transform (pca_source_ st) X_source) (M_ st)
    end in
  let X_target :=
    match nrows X_target with
    | 0 => X_target
    | S _ => matmul (pca_transform (pca_target_ st) X_target) (M_ st)
    end in
  (X_source, X_target).

(** [SubspaceAlignmentAdapter.adapt] *)
Definition adapt (st : fitted) (X : ndarray) (sample_domain : list Z)
  : ndarray :=
  let '(X_source, X_target) := adapt_blocks st X sample_domain in
  source_target_merge X_source X_target sample_domain.

End Adapter.

End SubspaceAlignmentAdapter.

Module SA := SubspaceAlignmentAdapter.

(** A linear PCA object, [transform(X) = (X - mean_) @ components_.T], used
    to run the adapter on concrete data. *)
Module LinearPCA.

Record t : Type := mk { mean_ : vector; comps : ndarray }.

Definition transform (p : t) (X : ndarray) : ndarray :=
  matmul (mk_ndarray (ncols X) (map (fun r => map2 sub r (mean_ p)) (rows X)))
         (transpose (comps p)).

(** A stand-in decomposition: the first [k] coordinate axes, zero mean. *)
Definition decompose (k : nat) (rs : unit) (X : ndarray) : t * unit :=
  (mk (repeat zero (ncols X))
      (mk_ndarray (ncols X) (firstn k (rows (np_identity (ncols X))))), rs).

End LinearPCA.

(** ** Sorting indices: [np.argsort] *)

(** numpy's order on floats for sorting: NaN sorts after everything else. *)
Definition np_lt (a b : float) : bool :=
  ltb a b || (is_nan b && negb (is_nan a)).

(** Insert index [i] in a list of indices sorted by key; an index goes after
    the indices whose key is not greater, as insertion from the right does. *)
Fixpoint insert_index (v : vector) (i : nat) (l : list nat) : list nat :=
  match l with
  | [] => [i]
  | j :: l' =>
      if np_lt (nth i v zero) (nth j v zero) then i :: j :: l'
      else j :: insert_index v i l'
  end.

(** [np.argsort(v, kind="stable")]: the indices of [v] in ascending order
    of value, equal values in index order.  It is one of the sorts
    [np.argsort] may be, and the one the adapters are run with on concrete
    data. *)
Definition stable_argsort (v : vector) : list nat :=
  fold_left (fun acc i => insert_index v i acc) (seq 0 (length v)) [].

(** [np.argsort] itself is numpy's, and its default sort is not stable: the
    order in which it leaves equal values is not fixed.  The adapters take
    it as a parameter [argsort]; what numpy promises of it is
    [np_argsort_spec]: the result lists every index of its argument once,
    and no value comes after a greater one (NaN counting as greatest). *)
Definition ascending_order (v : vector) (i j : nat) : Prop :=
  np_lt (nth j v zero) (nth i v zero) = false.

Definition np_argsort_spec (argsort : vector -> list nat) : Prop :=
  forall v,
    StronglySorted (ascending_order v) (argsort v)
    /\ (forall i, In i (argsort v) <-> i < length v)
    /\ NoDup (argsort v)
    /\ length (argsort v) = length v.

(** ** Python integer division [a / b] giving a float *)

Definition py_truediv (a b : Z) : result float :=
  if (b =? 0)%Z then Err ZeroDivisionError
  else Ok (div (of_Z a) (of_Z b)).

(** ** Assignment through a boolean mask *)

(** [G[mask] = values]: the values go, in order, to the positions where the
    mask holds. *)
Fixpoint mask_assign (mask : list bool) (values G : vector) : vector :=
  match mask, G with
  | b :: mask', g :: G' =>
      if b then
        match values with
        | v :: values' => v :: mask_assign mask' values' G'
        | [] => g :: mask_assign mask' [] G'
        end
      else g :: mask_assign mask' values G'
  | _, _ => G
  end.

(** [G[mask] = c] for a scalar [c]. *)
Fixpoint mask_fill (mask : list bool) (c : float) (G : vector) : vector :=
  match mask, G with
  | b :: mask', g :: G' => (if b then c else g) :: mask_fill mask' c G'
  | _, _ => G
  end.

(** ** Kernel matrices *)

Section Kernels.

(** [sklearn.metrics.pairwise.pairwise_kernels] evaluates the configured
    kernel on every pair of rows; the kernel itself is a parameter.  sklearn
    first validates its arguments and raises [ValueError] for an array
    without rows, with an entry that is not finite, or with another number
    of features than the other one; this is the function on the arguments
    it accepts. *)
Variable kernel : vector -> vector -> float.

Definition pairwise_kernels (X Y : ndarray) : ndarray :=
  mk_ndarray (nrows Y) (map (fun x => map (kernel x) (rows Y)) (rows X)).

(** What the recomputing branch of [adapt] does to one input row: its
    kernel values against the stored source rows, then against the stored
    target rows, projected through the fitted matrix [P]. *)
Definition kernel_embed (X_source_ X_target_ P : ndarray) (x : vector)
  : vector :=
  vecmat (map (kernel x) (rows X_source_) ++ map (kernel x) (rows X_target_)) P.

End Kernels.

(** ** TransferComponentAnalysisAdapter *)

Module TransferComponentAnalysisAdapter.

Section Adapter.

(** The configured kernel. *)
Variable kernel : vector -> vector -> float.
(** [np.linalg.solve] and [np.linalg.eigh] are external solvers, and
    [np.argsort] an external sort. *)
Variable solve : ndarray -> ndarray -> result ndarray.
Variable eigh : ndarray -> result (vector * ndarray).
Variable argsort : vector -> list nat.

Record params : Type := mk_params {
  n_components : option nat;
  mu : float
}.

Record fitted : Type := mk_fitted {
  X_source_ : ndarray;
  X_target_ : ndarray;
  K_ : ndarray;
  eigvects_ : ndarray
}.

(** The combined kernel matrix [K] of [fit]. *)
Definition kernel_matrix (X_source_ X_target_ : ndarray) : ndarray :=
  let Kss := pairwise_kernels kernel X_source_ X_source_ in
  let Ktt := pairwise_kernels kernel X_target_ X_target_ in
  let Kst := pairwise_kernels kernel X_source_ X_target_ in
  np_block Kss Kst (transpose Kst) Ktt.

(** [np.argsort(np.abs(eigvals))[::-1][:n_components]] *)
Definition selected_components (n_components : nat) (eigvals : vector)
  : list nat :=
  firstn n_components (rev (argsort (map abs eigvals))).

(** [TransferComponentAnalysisAdapter.fit] *)
Definition fit (self : params) (X : ndarray) (sample_domain : list Z)
  : result fitted :=
  let '(X, sample_domain) := check_X_domain X sample_domain in
  let '(X_source_, X_target_) := source_target_split X sample_domain in
  let K := kernel_matrix X_source_ X_target_ in
  let ns := nrows X_source_ in
  let nt := nrows X_target_ in
  css <- py_truediv 1 (Z.of_nat ns ^ 2) ;;
  let Lss := np_scale css (np_ones ns ns) in
  ctt <- py_truediv 1 (Z.of_nat nt ^ 2) ;;
  let Ltt := np_scale ctt (np_ones nt nt) in
  cst <- py_truediv (-1) (Z.of_nat ns * Z.of_nat nt) ;;
  let Lst := np_scale cst (np_ones ns nt) in
  let L := np_block Lss Lst (transpose Lst) Ltt in
  c <- py_truediv 1 (Z.of_nat ns + Z.of_nat nt) ;;
  let H := np_sub (np_identity (ns + nt))
                  (np_scale c (np_ones (ns + nt) (ns + nt))) in
  let A := np_add (np_identity (ns + nt))
                  (matmul (matmul (np_scale (mu self) K) L) K) in
  let B := matmul (matmul K H) K in
  solution <- solve A B ;;
  '(eigvals, eigvects) <- eigh solution ;;
  let n_components :=
    match n_components self with
    | None => Nat.min (nrows X) (ncols X)
    | Some k => k
    end in
  let selected_components := selected_components n_components eigvals in
  Ok (mk_fitted X_source_ X_target_ K
        (take_cols selected_components eigvects)).

(** [TransferComponentAnalysisAdapter.adapt] *)
Definition adapt (st : fitted) (X : ndarray) (sample_domain : list Z)
  : ndarray :=
  let '(X, sample_domain) := check_X_domain X sample_domain in
  let '(X_source, X_target) := source_target_split X sample_domain in
  if array_equal X_source (X_source_ st)
     && array_equal X_target (X_target_ st)
  then take_rows (nrows X) (matmul (K_ st) (eigvects_ st))
  else
    let Ks := pairwise_kernels kernel X (X_source_ st) in
    let Kt := pairwise_kernels kernel X (X_target_ st) in
    let K := np_concatenate_axis1 Ks Kt in
    take_rows (nrows X) (matmul K (eigvects_ st)).

End Adapter.

End TransferComponentAnalysisAdapter.

Module TCA := TransferComponentAnalysisAdapter.

(** ** TransferJointMatchingAdapter *)

Module TransferJointMatchingAdapter.

Section Adapter.

(** The configured kernel. *)
Variable kernel : vector -> vector -> float.
(** [scipy.linalg.eigh(B, C)], the generalized symmetric eigensolver, and
    [np.argsort]. *)
Variable eigh_gen : ndarray -> ndarray -> result (vector * ndarray).
Variable argsort : vector -> list nat.

Record params : Type := mk_params {
  n_components : option nat;
  tradeoff : float;
  max_iter : nat;
  tol : float
}.

Record fitted : Type := mk_fitted {
  X_source_ : ndarray;
  X_target_ : ndarray;
  A_ : ndarray
}.

(** [_get_mmd_matrix] *)
Definition _get_mmd_matrix (ns nt : nat) (sample_domain : list Z)
  : result ndarray :=
  css <- py_truediv 1 (Z.of_nat ns ^ 2) ;;
  let Mss := np_scale css (np_ones ns ns) in
  ctt <- py_truediv 1 (Z.of_nat nt ^ 2) ;;
  let Mtt := np_scale ctt (np_ones nt nt) in
  cst <- py_truediv 1 (Z.of_nat ns * Z.of_nat nt) ;;
  let Mst := np_scale (opp cst) (np_ones ns nt) in
  let M := np_block Mss Mst (transpose Mst) Mtt in
  Ok M.

(** [_get_kernel_matrix] *)
Definition _get_kernel_matrix (X_source X_target : ndarray) : ndarray :=
  let Kss := pairwise_kernels kernel X_source X_source in
  let Ktt := pairwise_kernels kernel X_target X_target in
  let Kst := pairwise_kernels kernel X_source X_target in
  np_block Kss Kst (transpose Kst) Ktt.

(** [TransferJointMatchingAdapter.adapt] *)
Definition adapt (st : fitted) (X : ndarray) (sample_domain : list Z)
  : ndarray :=
  let '(X, sample_domain) := check_X_domain X sample_domain in
  let '(X_source, X_target) := source_target_split X sample_domain in
  if array_equal X_source (X_source_ st)
     && array_equal X_target (X_target_ st)
  then
    let K := _get_kernel_matrix X_source X_target in
    matmul K (A_ st)
  else
    let Ks := pairwise_kernels kernel X (X_source_ st) in
    let Kt := pairwise_kernels kernel X (X_target_ st) in
    let K := np_concatenate_axis1 Ks Kt in
    matmul K (A_ st).

Definition EPS_eigval : float := pow10_neg 10.

(** The diagonal of [G] after the "update G" step of an iteration. *)
Definition G_diagonal (n : nat) (source_mask : list bool) (A : ndarray)
  : vector :=
  let A_norms := norm_axis1 A in
  let G := repeat zero n in
  let nonzero := map (fun x => neqb x zero) A_norms in
  let G :=
    mask_assign nonzero
      (map (fun x => div one (add (mul two x) EPS_eigval))
           (bool_index nonzero A_norms))
      G in
  mask_fill (map negb source_mask) one G.

Definition update_G (n : nat) (source_mask : list bool) (A : ndarray)
  : ndarray :=
  np_diag (G_diagonal n source_mask A).

(** The stopping test at the end of an iteration. *)
Definition early_stop (tol last_loss loss_total : float) : bool :=
  eqb last_loss zero
  || ltb (div (abs (sub last_loss loss_total)) last_loss) tol.

(** The values [fit] computes before its loop. *)
Record env_t : Type := mk_env {
  env_n : nat;
  env_n_components : nat;
  env_source_mask : list bool;
  env_H : ndarray;
  env_K : ndarray;
  env_M : ndarray
}.

(** The variables the loop of [fit] updates; [loop_A] is unset until the
    first iteration has run, [loop_iterations] counts the iterations
    entered and [loop_warnings] the accuracy warnings emitted. *)
Record loop_state : Type := mk_loop_state {
  loop_G : ndarray;
  loop_last_loss : float;
  loop_A : option ndarray;
  loop_iterations : nat;
  loop_warnings : nat
}.

(** The "update A" step: the selected eigenvectors and whether the
    accuracy warning is emitted. *)
Definition update_A (self : params) (env : env_t) (G : ndarray)
  : result (ndarray * bool) :=
  let K := env_K env in
  let n := env_n env in
  let B := np_add (matmul (matmul K (env_M env)) (transpose K))
                  (np_scale (tradeoff self) G) in
  let C := matmul (matmul K (env_H env)) (transpose K) in
  let B := np_add B (np_scale EPS_eigval (np_identity n)) in
  let C := np_add C (np_scale EPS_eigval (np_identity n)) in
  '(phi, A) <- eigh_gen B C ;;
  let phi := map (fun x => add x EPS_eigval) phi in
  let indices := firstn (env_n_components env) (argsort phi) in
  let phi := take indices phi in
  let A := take_cols indices A in
  let error_eigv :=
    norm_fro (np_sub (matmul B A) (matmul (matmul C A) (np_diag phi))) in
  Ok (A, gtb error_eigv (pow10_neg 5)).

(** [loss_total] of an iteration. *)
Definition total_loss (self : params) (env : env_t) (A : ndarray)
  : float :=
  let K := env_K env in
  let source_mask := env_source_mask env in
  let loss :=
    np_trace
      (matmul (matmul (matmul (matmul (transpose A) K) (env_M env)) K) A) in
  let target_norm := norm_fro (mask_rows (map negb source_mask) A) in
  let reg :=
    add (fsum (norm_axis1 (mask_rows source_mask A)))
        (mul target_norm target_norm) in
  add loss (mul (tradeoff self) reg).

(** [for i in range(max_iter)]: [remaining] iterations are left.  The
    printing under [verbose] changes no variable and is left out. *)
Fixpoint loop (self : params) (env : env_t) (remaining : nat)
    (st : loop_state) : result loop_state :=
  match remaining with
  | 0 => Ok st
  | S remaining' =>
      '(A, warned) <- update_A self env (loop_G st) ;;
      let G := update_G (env_n env) (env_source_mask env) A in
      let loss_total := total_loss self env A in
      let iterations := S (loop_iterations st) in
      let warnings := loop_warnings st + (if warned then 1 else 0) in
      if early_stop (tol self) (loop_last_loss st) loss_total
      then Ok (mk_loop_state G (loop_last_loss st) (Some A)
                                 iterations warnings)
      else loop self env remaining'
             (mk_loop_state G loss_total (Some A) iterations warnings)
  end.

(** The state in which [fit] enters its loop. *)
Definition initial_state (self : params) (env : env_t)
  : loop_state :=
  mk_loop_state (np_identity (env_n env))
                    (mul (of_Z (-2)) (tol self)) None 0 0.

(** The part of [fit] before the loop. *)
Definition prepare (self : params) (X : ndarray)
    (sample_domain : list Z) : result (ndarray * ndarray * env_t) :=
  let '(X, sample_domain) := check_X_domain X sample_domain in
  let '(X_source, X_target) := source_target_split X sample_domain in
  let n_components :=
    match n_components self with
    | None => Nat.min (nrows X) (ncols X)
    | Some k => k
    end in
  let n := nrows X in
  let source_mask := extract_source_indices sample_domain in
  c <- py_truediv 1 (Z.of_nat n) ;;
  let H := np_sub (np_identity n) (np_scale c (np_ones n n)) in
  let K := _get_kernel_matrix X_source X_target in
  M <- _get_mmd_matrix (nrows X_source) (nrows X_target) sample_domain ;;
  let M := np_div_scalar M (norm_fro M) in
  Ok (X_source, X_target, mk_env n n_components source_mask H K M).

(** [TransferJointMatchingAdapter.fit], with the final loop state. *)
Definition fit_trace (self : params) (X : ndarray)
    (sample_domain : list Z) : result (fitted * loop_state) :=
  '(X_source, X_target, env) <- prepare self X sample_domain ;;
  st <- loop self env (max_iter self) (initial_state self env) ;;
  match loop_A st with
  | Some A => Ok (mk_fitted X_source X_target A, st)
  | None => Err UnboundLocalError
  end.

Definition fit (self : params) (X : ndarray) (sample_domain : list Z)
  : result fitted :=
  '(fitted, _) <- fit_trace self X sample_domain ;;
  Ok fitted.

End Adapter.

End TransferJointMatchingAdapter.

Module TJM := TransferJointMatchingAdapter.

(** ** Concrete data on which the adapters are run *)

Module Sample.

(** The linear kernel, [k(x, y) = <x, y>]. *)
Definition linear_kernel (x y : vector) : float := dot x y.

(** Stand-ins for the external solvers, enough to run [fit]: [solve]
    returns its right-hand side, the eigensolvers return the diagonal of
    their first argument with the coordinate axes. *)
Definition diagonal (B : ndarray) : vector :=
  map (fun i => nth i (nth i (rows B) []) zero) (seq 0 (nrows B)).

Definition solve (A B : ndarray) : result ndarray := Ok B.

Definition eigh (S : ndarray) : result (vector * ndarray) :=
  Ok (diagonal S, np_identity (nrows S)).

Definition eigh_gen (B C : ndarray) : result (vector * ndarray) :=
  Ok (diagonal B, np_identity (nrows B)).

(** Four one-dimensional samples with source and target rows interleaved. *)
Definition X4 : ndarray :=
  mk_ndarray 1 [[of_Z 1]; [of_Z 2]; [of_Z 3]; [of_Z 4]].

Definition interleaved : list Z := [1; -1; 1; -1]%Z.

(** Two source and two target rows with five features. *)
Definition X_wide : ndarray :=
  mk_ndarray 5
    [map of_Z [1; 0; 0; 0; 0]%Z; map of_Z [-1; -2; -3; -4; -5]%Z;
     map of_Z [0; 1; 0; 2; 0]%Z; map of_Z [3; 1; 4; 1; 5]%Z].

Definition source_first : list Z := [1; 1; -1; -1]%Z.

(** [tol = 0.01], [tradeoff = 1e-2], the defaults of the TJM adapter. *)
Definition tjm_defaults (max_iter : nat) : TJM.params :=
  TJM.mk_params None (pow10_neg 2) max_iter (pow10_neg 2).

Definition tca_defaults : TCA.params := TCA.mk_params None (pow10_neg 1).

(** A fitted subspace aligner over two features and one component: the
    source basis is the first axis, the target basis the second. *)
Definition sa_axes : SA.fitted LinearPCA.t :=
  SA.mk_fitted
    (LinearPCA.mk [zero; zero] (mk_ndarray 2 [[one; zero]]))
    (LinearPCA.mk [zero; zero] (mk_ndarray 2 [[zero; one]]))
    1
    (matmul (mk_ndarray 2 [[one; zero]])
            (transpose (mk_ndarray 2 [[zero; one]]))).

Definition X_pair : ndarray := mk_ndarray 2 [[one; zero]; [zero; one]].

Definition source_then_target : list Z := [1; -1]%Z.

Definition all_target : list Z := [-1; -1]%Z.

Definition all_source : list Z := [1; 2]%Z.

(** The loop environment [fit] prepares for [X4], and the projection its
    first iteration computes. *)
Definition tjm_env4 : TJM.env_t :=
  match TJM.prepare linear_kernel (tjm_defaults 5) X4 interleaved with
  | Ok (_, _, env) => env
  | Err _ => TJM.mk_env 0 0 [] (np_identity 0) (np_identity 0) (np_identity 0)
  end.

Definition tjm_A4 : ndarray :=
  match TJM.update_A eigh_gen stable_argsort (tjm_defaults 5) tjm_env4
          (np_identity (TJM.env_n tjm_env4)) with
  | Ok (A, _) => A
  | Err _ => np_identity 0
  end.

(** The adapter state TCA's [fit] leaves for [X4]. *)
Definition tca_fitted4 : TCA.fitted :=
  match TCA.fit linear_kernel solve eigh stable_argsort tca_defaults X4
          interleaved with
  | Ok st => st
  | Err _ => TCA.mk_fitted (np_identity 0) (np_identity 0) (np_identity 0)
                           (np_identity 0)
  end.

(** A projection onto one component, for the four rows of [X4]. *)
Definition P4 : ndarray := mk_ndarray 1 [[one]; [zero]; [zero]; [zero]].

(** Eigenvalues with two pairs of equal magnitudes. *)
Definition eigvals4 : vector := map of_Z [1; -3; 1; 3]%Z.

End Sample.

(** ** The sorting order as an order on integer keys

    [float_key] sends a float to a triple of integers whose lexicographic
    order is the order [np_lt] sorts by: negative infinity, negative
    numbers, the zeros, positive numbers, positive infinity, NaN. *)

Definition float_key (x : float) : Z * Z * Z :=
  match x with
  | S754_infinity true => (-2, 0, 0)
  | S754_finite true m e => (-1, - e, Zneg m)
  | S754_zero _ => (0, 0, 0)
  | S754_finite false m e => (1, e, Zpos m)
  | S754_infinity false => (2, 0, 0)
  | S754_nan => (3, 0, 0)
  end%Z.

Definition key_lt (a b : Z * Z * Z) : Prop :=
  let '(a1, a2, a3) := a in
  let '(b1, b2, b3) := b in
  (a1 < b1 \/ (a1 = b1 /\ (a2 < b2 \/ (a2 = b2 /\ a3 < b3))))%Z.

(** The order in which [stable_argsort] leaves the indices of [v]:
    ascending key, and ascending index among equal keys. *)
Definition sorted_before (v : vector) (i j : nat) : Prop :=
  let ki := float_key (nth i v zero) in
  let kj := float_key (nth j v zero) in
  key_lt ki kj \/ (ki = kj /\ i < j).

(** ** Further notions used to state the adapters' behaviour *)

(** Every entry is a finite number, which is what sklearn's input validation
    asks of an array handed to [PCA.fit] or to [pairwise_kernels]. *)
Definition all_finite (X : ndarray) : Prop :=
  Forall (Forall (fun x => is_finite x = true)) (rows X).

(** In a loop state of TJM's [fit], [G] and [A] belong to the same
    iteration: [G] is what "update G" computes from [A]. *)
Definition tjm_G_of_A (env : TJM.env_t) (st : TJM.loop_state) : Prop :=
  exists A,
    TJM.loop_A st = Some A
    /\ TJM.loop_G st = TJM.update_G (TJM.env_n env) (TJM.env_source_mask env) A.

(** The rows of a symmetric two-by-two arrangement of constant blocks:
    [a] on the [ns] by [ns] block, [c] on the [nt] by [nt] block, [b] on
    both cross blocks. *)
Definition constant_blocks (ns nt : nat) (a b c : float) : list (list float) :=
  repeat (repeat a ns ++ repeat b nt) ns
  ++ repeat (repeat b ns ++ repeat c nt) nt.

(** What [LinearPCA.transform] does to one row. *)
Definition linear_pca_row (p : LinearPCA.t) (r : vector) : vector :=
  vecmat (map2 sub r (LinearPCA.mean_ p)) (transpose (LinearPCA.comps p)).

(** Adapter states and further data for the four samples of [Sample.X4]. *)
Module Fitted.

(** What TJM's [fit] returns for the interleaved labels, with the state in
    which its loop ended. *)
Definition tjm_trace4 : TJM.fitted * TJM.loop_state :=
  match TJM.fit_trace Sample.linear_kernel Sample.eigh_gen stable_argsort
          (Sample.tjm_defaults 5) Sample.X4 Sample.interleaved with
  | Ok p => p
  | Err _ =>
      (TJM.mk_fitted (np_identity 0) (np_identity 0) (np_identity 0),
       TJM.mk_loop_state (np_identity 0) zero None 0 0)
  end.

(** Three new one-dimensional samples, two of a source and one of a target
    domain. *)
Definition X_new : ndarray := mk_ndarray 1 [[of_Z 5]; [of_Z 6]; [of_Z 7]].

Definition new_domains : list Z := [1; -1; 2]%Z.

End Fitted.
(** * Properties *)

(** *** Shape of rounded results

    Rounding a non-negative mantissa never yields NaN and keeps the sign it
    was given.  These facts carry the sign reasoning about the TJM stopping
    test. *)

Lemma shr_1_nonneg (mrs : shr_record) :
  (0 <= shr_m mrs)%Z -> (0 <= shr_m (shr_1 mrs))%Z.
Proof.
  destruct mrs as [m r s]; simpl.
  destruct m as [|p|p]; simpl; intros H; try lia.
  - destruct p; simpl; lia.
Qed.

Lemma iter_pos_shr_1_nonneg (p : positive) :
  forall mrs, (0 <= shr_m mrs)%Z -> (0 <= shr_m (iter_pos shr_1 p mrs))%Z.
Proof.
  induction p as [p IH|p IH|]; simpl; intros mrs H.
  - apply IH, IH, shr_1_nonneg, H.
  - apply IH, IH, H.
  - apply shr_1_nonneg, H.
Qed.

Lemma shr_record_of_loc_m (m : Z) (l : location) :
  shr_m (shr_record_of_loc m l) = m.
Proof. destruct l as [|[| |]]; reflexivity. Qed.

Lemma shr_fexp_nonneg (m e : Z) (l : location) :
  (0 <= m)%Z -> (0 <= shr_m (fst (shr_fexp prec emax m e l)))%Z.
Proof.
  intros H. unfold shr_fexp, shr.
  destruct (_ - e)%Z as [|p|p]; simpl;
    try (rewrite shr_record_of_loc_m; exact H).
  apply iter_pos_shr_1_nonneg. rewrite shr_record_of_loc_m; exact H.
Qed.

Lemma round_nearest_even_nonneg (m : Z) (l : location) :
  (0 <= m)%Z -> (0 <= round_nearest_even m l)%Z.
Proof.
  intros H. destruct l as [|[| |]]; simpl; try lia.
  destruct (Z.even m); lia.
Qed.

Lemma binary_round_aux_signed (s : bool) (m e : Z) (l : location) :
  (0 <= m)%Z -> signed s (binary_round_aux prec emax s m e l).
Proof.
  intros H. unfold binary_round_aux.
  pose proof (shr_fexp_nonneg e l H) as H1.
  destruct (shr_fexp prec emax m e l) as [mrs' e'] eqn:E1. simpl in H1.
  pose proof (round_nearest_even_nonneg (loc_of_shr_record mrs') H1) as H2.
  pose proof (shr_fexp_nonneg e' loc_Exact H2) as H3.
  destruct (shr_fexp prec emax _ e' loc_Exact) as [mrs'' e''] eqn:E2.
  simpl in H3.
  destruct (shr_m mrs'') as [|p|p]; simpl; try reflexivity; try lia.
  destruct (Z.leb e'' _); reflexivity.
Qed.

Lemma binary_round_signed (s : bool) (m : positive) (e : Z) :
  signed s (binary_round prec emax s m e).
Proof.
  unfold binary_round.
  destruct (shl_align m e _) as [mz ez].
  apply binary_round_aux_signed. lia.
Qed.

Lemma binary_normalize_not_nan (m e : Z) (sz : bool) :
  is_nan (binary_normalize prec emax m e sz) = false.
Proof.
  destruct m as [|p|p]; simpl; try reflexivity.
  - pose proof (binary_round_signed false p e) as H.
    destruct (binary_round _ _ _ _ _); simpl in *; tauto.
  - pose proof (binary_round_signed true p e) as H.
    destruct (binary_round _ _ _ _ _); simpl in *; tauto.
Qed.


Lemma mul_finite_signed (sx sy : bool) (mx my : positive) (ex ey : Z) :
  signed (xorb sx sy) (mul (S754_finite sx mx ex) (S754_finite sy my ey)).
Proof. apply binary_round_aux_signed. lia. Qed.

Lemma sub_not_nan (x y : float) :
  is_finite x = true -> is_nan y = false -> is_nan (sub x y) = false.
Proof.
  destruct x as [sx|sx| |sx mx ex]; try discriminate;
    destruct y as [sy|sy| |sy my ey]; try discriminate; intros _ _;
    try reflexivity.
  - destruct sx, sy; reflexivity.
  - apply binary_normalize_not_nan.
Qed.

Lemma abs_signed (x : float) : is_nan x = false -> signed false (abs x).
Proof. destruct x; simpl; intros H; try reflexivity; discriminate. Qed.

Lemma div_core_nonneg (m1 m2 : positive) (e1 e2 : Z) :
  (0 <= fst (fst (SFdiv_core_binary prec emax (Zpos m1) e1 (Zpos m2) e2)))%Z.
Proof.
  unfold SFdiv_core_binary.
  set (s := (e1 - e2 - _)%Z).
  set (m' := match s with Z0 => Zpos m1 | Zpos _ => Z.shiftl (Zpos m1) s
                        | Zneg _ => 0%Z end).
  assert (Hm : (0 <= m')%Z).
  { unfold m'. destruct s; try lia. apply Z.shiftl_nonneg. lia. }
  pose proof (Z.div_pos m' (Zpos m2) Hm ltac:(lia)) as Hq.
  unfold Z.div in Hq.
  destruct (Z.div_eucl m' (Zpos m2)) as [q r]. exact Hq.
Qed.

Lemma div_signed (x : float) (m : positive) (e : Z) :
  signed false x -> signed true (div x (S754_finite true m e)).
Proof.
  destruct x as [sx|sx| |sx mx ex]; simpl; intros H; subst; try reflexivity;
    try contradiction.
  unfold div, SFdiv.
  pose proof (div_core_nonneg mx m ex e) as Hq.
  destruct (SFdiv_core_binary prec emax (Zpos mx) ex (Zpos m) e) as [[mz ez] lz].
  apply (binary_round_aux_signed true ez lz Hq).
Qed.

Lemma ltb_negative_positive (x : float) (m : positive) (e : Z) :
  signed true x -> ltb x (S754_finite false m e) = true.
Proof.
  destruct x as [sx|sx| |sx mx ex]; simpl; intros H; subst; try reflexivity;
    contradiction.
Qed.

Lemma positive_tol_shape (tol : float) :
  ltb zero tol = true -> is_finite tol = true ->
  exists m e, tol = S754_finite false m e.
Proof.
  destruct tol as [s|s| |s m e]; try discriminate.
  destruct s; try discriminate. intros _ _. now exists m, e.
Qed.

(** With [last_loss = -2 * tol], [tol > 0], the stopping test holds whatever
    (non-NaN) loss the iteration computed: the relative change is a
    non-negative number divided by a negative one. *)
Lemma tjm_early_stop_initial (tol loss_total : float) :
  ltb zero tol = true -> is_finite tol = true ->
  is_finite (mul (of_Z (-2)) tol) = true ->
  is_nan loss_total = false ->
  TJM.early_stop tol (mul (of_Z (-2)) tol) loss_total = true.
Proof.
  intros Hpos Hfin Hlast Hloss.
  destruct (positive_tol_shape tol Hpos Hfin) as (m & e & ->).
  unfold TJM.early_stop.
  assert (Hs : signed true (mul (of_Z (-2)) (S754_finite false m e))).
  { change (of_Z (-2)) with (S754_finite true 4503599627370496 (-51)).
    apply (mul_finite_signed true false). }
  destruct (mul (of_Z (-2)) (S754_finite false m e)) as [s|s| |s m' e'] eqn:E;
    try discriminate; simpl in Hs; subst s.
  - reflexivity.
  - apply Bool.orb_true_iff. right.
    apply ltb_negative_positive, div_signed, abs_signed, sub_not_nan;
      [reflexivity | exact Hloss].
Qed.

(** ** TransferJointMatchingAdapter: the stopping test *)

Section TJMLoop.

Variable eigh_gen : ndarray -> ndarray -> result (vector * ndarray).
Variable argsort : vector -> list nat.

(** C1 (the code departs from the claim).  With [tol > 0] and any
    [max_iter >= 1], whenever the first iteration computes a loss that is
    not NaN the stopping test holds at the end of that very iteration: the
    loop of [fit] leaves after one iteration, keeping the first [A]. *)
Theorem tjm_stops_after_first_iteration
    (self : TJM.params) (env : TJM.env_t) (A : ndarray) (warned : bool)
    (remaining : nat) :
  ltb zero (TJM.tol self) = true ->
  is_finite (TJM.tol self) = true ->
  is_finite (mul (of_Z (-2)) (TJM.tol self)) = true ->
  TJM.update_A eigh_gen argsort self env (np_identity (TJM.env_n env))
    = Ok (A, warned) ->
  is_nan (TJM.total_loss self env A) = false ->
  exists st,
    TJM.loop eigh_gen argsort self env (S remaining)
             (TJM.initial_state self env)
      = Ok st
    /\ TJM.loop_iterations st = 1
    /\ TJM.loop_A st = Some A.
Proof.
  intros Hpos Hfin Hlast HA Hloss.
  cbn [TJM.loop TJM.initial_state TJM.loop_G TJM.loop_last_loss TJM.loop_iterations
       TJM.loop_warnings].
  rewrite HA. cbn [bind].
  rewrite (tjm_early_stop_initial (TJM.tol self) _ Hpos Hfin Hlast Hloss).
  eexists. split; [reflexivity|]. split; reflexivity.
Qed.

End TJMLoop.

(** ** Lists and arrays *)

Lemma map2_length {A B C : Type} (f : A -> B -> C) (l : list A) (l' : list B) :
  length (map2 f l l') = Nat.min (length l) (length l').
Proof. unfold map2. now rewrite length_map, length_combine. Qed.

Lemma nth_error_combine {A B : Type} (l : list A) (l' : list B) (i : nat)
    (a : A) (b : B) :
  nth_error l i = Some a -> nth_error l' i = Some b ->
  nth_error (combine l l') i = Some (a, b).
Proof.
  revert l' i. induction l as [|x l IH]; intros [|y l'] [|i]; simpl;
    try discriminate; intros H1 H2.
  - now inversion H1; inversion H2.
  - now apply IH.
Qed.

Lemma nth_error_map2 {A B C : Type} (f : A -> B -> C) (l : list A)
    (l' : list B) (i : nat) (a : A) (b : B) :
  nth_error l i = Some a -> nth_error l' i = Some b ->
  nth_error (map2 f l l') i = Some (f a b).
Proof.
  intros H1 H2. unfold map2.
  rewrite nth_error_map, (nth_error_combine _ _ _ H1 H2). reflexivity.
Qed.

Lemma nth_error_map_some {A B : Type} (f : A -> B) (l : list A) (i : nat)
    (a : A) :
  nth_error l i = Some a -> nth_error (map f l) i = Some (f a).
Proof. intros H. now rewrite nth_error_map, H. Qed.

Lemma nth_error_nth_some {A : Type} (l : list A) (i : nat) (d : A) :
  i < length l -> nth_error l i = Some (nth i l d).
Proof. intros H. now apply nth_error_nth'. Qed.

(** ** Kernel matrices *)

Section KernelMatrix.

Variable kernel : vector -> vector -> float.

Lemma pairwise_kernels_nrows (X Y : ndarray) :
  nrows (pairwise_kernels kernel X Y) = nrows X.
Proof. unfold nrows, pairwise_kernels; simpl. apply length_map. Qed.

Lemma pairwise_kernels_row (X Y : ndarray) (i : nat) (x : vector) :
  nth_error (rows X) i = Some x ->
  nth_error (rows (pairwise_kernels kernel X Y)) i
    = Some (map (kernel x) (rows Y)).
Proof. intros H. cbn [pairwise_kernels rows]. now rewrite nth_error_map, H. Qed.

(** The cross blocks of [np.block([[Kss, Kst], [Kst.T, Ktt]])] mirror each
    other entry by entry, both holding the computed [Kst[i, j]]. *)
Lemma block_cross_entries (X_source X_target : ndarray) (i j : nat)
    (x t : vector) :
  nth_error (rows X_source) i = Some x ->
  nth_error (rows X_target) j = Some t ->
  let Kss := pairwise_kernels kernel X_source X_source in
  let Ktt := pairwise_kernels kernel X_target X_target in
  let Kst := pairwise_kernels kernel X_source X_target in
  let K := np_block Kss Kst (transpose Kst) Ktt in
  entry K i (nrows X_source + j) = Some (kernel x t)
  /\ entry K (nrows X_source + j) i = Some (kernel x t).
Proof.
  intros Hx Ht Kss Ktt Kst K.
  assert (Hi : i < nrows X_source) by (apply nth_error_Some; congruence).
  assert (Hj : j < nrows X_target) by (apply nth_error_Some; congruence).
  assert (Htop : length (map2 (@app float) (rows Kss) (rows Kst))
                 = nrows X_source).
  { rewrite map2_length. unfold Kss, Kst. cbn [rows pairwise_kernels].
    rewrite !length_map. apply Nat.min_id. }
  assert (Hkt : nth_error (map (kernel x) (rows X_target)) j
                = Some (kernel x t)) by now apply nth_error_map_some.
  assert (Hrow : nth_error (rows Kst) i = Some (map (kernel x) (rows X_target)))
    by exact (pairwise_kernels_row X_source X_target i Hx).
  split; unfold entry, K, np_block; cbn [rows].
  - rewrite nth_error_app1 by (rewrite Htop; exact Hi).
    rewrite (nth_error_map2 _ _ _ _
               (pairwise_kernels_row X_source X_source i Hx) Hrow).
    rewrite nth_error_app2 by (rewrite length_map; fold (nrows X_source); lia).
    rewrite length_map. fold (nrows X_source).
    replace (nrows X_source + j - nrows X_source) with j by lia.
    exact Hkt.
  - rewrite nth_error_app2 by (rewrite Htop; lia).
    rewrite Htop.
    replace (nrows X_source + j - nrows X_source) with j by lia.
    assert (HT : nth_error (rows (transpose Kst)) j = Some (column j Kst)).
    { unfold transpose; cbn [rows].
      rewrite nth_error_map.
      assert (Hc : ncols Kst = nrows X_target) by reflexivity.
      rewrite Hc.
      rewrite nth_error_nth_some with (d := 0) by (rewrite length_seq; exact Hj).
      rewrite seq_nth by exact Hj. reflexivity. }
    rewrite (nth_error_map2 _ _ _ _ HT
               (pairwise_kernels_row X_target X_target j Ht)).
    assert (Hlen : length (column j Kst) = nrows X_source).
    { unfold column. rewrite length_map. apply pairwise_kernels_nrows. }
    rewrite nth_error_app1 by (rewrite Hlen; exact Hi).
    unfold column. rewrite nth_error_map, Hrow. cbn [option_map].
    f_equal. apply nth_error_nth. exact Hkt.
Qed.

(** C8.  The combined kernel matrix that TCA's [fit] and TJM's
    [_get_kernel_matrix] assemble is exactly symmetric across its cross
    blocks: for every source index [i] and target index [j], the entries
    [(i, ns + j)] and [(ns + j, i)] exist and are the same value. *)
Theorem kernel_matrix_cross_blocks_symmetric
    (X_source X_target : ndarray) (i j : nat) :
  i < nrows X_source -> j < nrows X_target ->
  let ns := nrows X_source in
  (exists k,
      entry (TCA.kernel_matrix kernel X_source X_target) i (ns + j) = Some k
      /\ entry (TCA.kernel_matrix kernel X_source X_target) (ns + j) i
         = Some k)
  /\ (exists k,
      entry (TJM._get_kernel_matrix kernel X_source X_target) i (ns + j) = Some k
      /\ entry (TJM._get_kernel_matrix kernel X_source X_target) (ns + j) i
         = Some k).
Proof.
  intros Hi Hj ns.
  destruct (nth_error (rows X_source) i) as [x|] eqn:Hx;
    [|apply nth_error_None in Hx; unfold nrows in Hi; lia].
  destruct (nth_error (rows X_target) j) as [t|] eqn:Ht;
    [|apply nth_error_None in Ht; unfold nrows in Hj; lia].
  destruct (block_cross_entries X_source X_target i j Hx Ht) as [H1 H2].
  split; exists (kernel x t); split; assumption.
Qed.

End KernelMatrix.

(** ** TransferJointMatchingAdapter: the reweighting step *)

Lemma mask_assign_length (mask : list bool) (values G : vector) :
  length (mask_assign mask values G) = length G.
Proof.
  revert values G. induction mask as [|b mask IH]; intros values [|g G];
    simpl; try reflexivity.
  destruct b; [destruct values|]; simpl; now rewrite IH.
Qed.

Lemma mask_fill_length (mask : list bool) (c : float) (G : vector) :
  length (mask_fill mask c G) = length G.
Proof.
  revert G. induction mask as [|b mask IH]; intros [|g G]; simpl;
    try reflexivity.
  now rewrite IH.
Qed.

(** Assigning through a mask computed from the very sequence the values are
    drawn from puts, at each selected position, the value of that position. *)
Lemma mask_assign_nth (p : float -> bool) (f : float -> float) (l G : vector)
    (i : nat) :
  length G = length l -> i < length l ->
  nth i (mask_assign (map p l) (map f (bool_index (map p l) l)) G) zero
    = if p (nth i l zero) then f (nth i l zero) else nth i G zero.
Proof.
  revert G i. induction l as [|x l IH]; intros [|g G] i HG Hi; simpl in *;
    try lia; try discriminate.
  destruct (p x) eqn:Hp; simpl.
  - destruct i as [|i]; [now rewrite Hp|]. apply IH; lia.
  - destruct i as [|i]; [now rewrite Hp|]. apply IH; lia.
Qed.

Lemma mask_fill_nth (mask : list bool) (c : float) (G : vector) (i : nat) :
  i < length G -> i < length mask ->
  nth i (mask_fill mask c G) zero
    = if nth i mask false then c else nth i G zero.
Proof.
  revert G i. induction mask as [|b mask IH]; intros [|g G] i HG Hm;
    simpl in *; try lia.
  destruct i as [|i]; [reflexivity|]. apply IH; lia.
Qed.

Lemma np_diag_entry (v : vector) (i : nat) :
  i < length v -> entry (np_diag v) i i = Some (nth i v zero).
Proof.
  intros Hi. unfold entry, np_diag; cbn [rows].
  rewrite nth_error_map.
  rewrite nth_error_nth_some with (d := 0) by (now rewrite length_seq).
  rewrite seq_nth by exact Hi. cbn [option_map Nat.add].
  rewrite nth_error_map.
  rewrite nth_error_nth_some with (d := 0) by (now rewrite length_seq).
  rewrite seq_nth by exact Hi. cbn [option_map Nat.add].
  now rewrite Nat.eqb_refl.
Qed.

Lemma tjm_G_diagonal_nth (n : nat) (source_mask : list bool) (A : ndarray)
    (i : nat) :
  nrows A = n -> length source_mask = n -> i < n ->
  let norm := norm2 (nth i (rows A) []) in
  nth i (TJM.G_diagonal n source_mask A) zero
    = if negb (nth i source_mask false) then one
      else if neqb norm zero
           then div one (add (mul two norm) TJM.EPS_eigval)
           else zero.
Proof.
  intros HA Hm Hi norm. unfold TJM.G_diagonal.
  assert (Hn : length (norm_axis1 A) = n)
    by (unfold norm_axis1; now rewrite length_map).
  rewrite mask_fill_nth;
    [| now rewrite mask_assign_length, repeat_length
     | now rewrite length_map, Hm ].
  change false with (negb true) at 1. rewrite map_nth.
  rewrite (nth_indep source_mask true false) by lia.
  destruct (nth i source_mask false); cbn [negb]; [|reflexivity].
  rewrite (mask_assign_nth (fun x => neqb x zero)
             (fun x => div one (add (mul two x) TJM.EPS_eigval)));
    [| now rewrite repeat_length, Hn | now rewrite Hn ].
  rewrite nth_repeat.
  unfold norm_axis1. change zero with (norm2 []) at 1 3.
  rewrite map_nth. reflexivity.
Qed.

(** ** Domain partition *)

Lemma bool_index_nil_all_false {A : Type} (mask : list bool) (l : list A) :
  length mask = length l -> bool_index mask l = [] ->
  mask = repeat false (length l).
Proof.
  revert l. induction mask as [|b mask IH]; intros [|x l] Hlen H;
    simpl in *; try discriminate; try reflexivity.
  destruct b; [discriminate|]. f_equal. apply IH; [lia|exact H].
Qed.

Lemma bool_index_all_true {A : Type} (l : list A) :
  bool_index (repeat true (length l)) l = l.
Proof. induction l as [|x l IH]; simpl; [reflexivity|now rewrite IH]. Qed.

Lemma merge_rows_all_target (tgt : list vector) :
  merge_rows (repeat false (length tgt)) [] tgt = tgt.
Proof. induction tgt as [|r tgt IH]; simpl; [reflexivity|now rewrite IH]. Qed.

Lemma merge_rows_all_source (src : list vector) :
  merge_rows (repeat true (length src)) src [] = src.
Proof. induction src as [|r src IH]; simpl; [reflexivity|now rewrite IH]. Qed.

Lemma map_negb_repeat (b : bool) (n : nat) :
  map negb (repeat b n) = repeat (negb b) n.
Proof. induction n as [|n IH]; simpl; [reflexivity|now rewrite IH]. Qed.

Lemma extract_source_indices_length (sample_domain : list Z) :
  length (extract_source_indices sample_domain) = length sample_domain.
Proof. unfold extract_source_indices. apply length_map. Qed.

(** Without source rows the target block is the whole input, and conversely. *)
Lemma split_no_source (X : ndarray) (sample_domain : list Z) :
  length sample_domain = nrows X ->
  nrows (fst (source_target_split X sample_domain)) = 0 ->
  extract_source_indices sample_domain = repeat false (nrows X)
  /\ snd (source_target_split X sample_domain) = X.
Proof.
  intros Hlen H0. unfold source_target_split in *. cbn [fst snd] in *.
  unfold nrows, mask_rows in H0. cbn [rows] in H0.
  apply length_zero_iff_nil in H0.
  assert (Hm : extract_source_indices sample_domain = repeat false (nrows X)).
  { apply bool_index_nil_all_false; [|exact H0].
    now rewrite extract_source_indices_length. }
  split; [exact Hm|].
  rewrite Hm, map_negb_repeat. unfold mask_rows, nrows.
  cbn [negb]. rewrite bool_index_all_true. now destruct X.
Qed.

Lemma split_no_target (X : ndarray) (sample_domain : list Z) :
  length sample_domain = nrows X ->
  nrows (snd (source_target_split X sample_domain)) = 0 ->
  extract_source_indices sample_domain = repeat true (nrows X)
  /\ fst (source_target_split X sample_domain) = X.
Proof.
  intros Hlen H0. unfold source_target_split in *. cbn [fst snd] in *.
  unfold nrows, mask_rows in H0. cbn [rows] in H0.
  apply length_zero_iff_nil in H0.
  assert (Hm : map negb (extract_source_indices sample_domain)
               = repeat false (nrows X)).
  { apply bool_index_nil_all_false; [|exact H0].
    now rewrite length_map, extract_source_indices_length. }
  assert (Hm' : extract_source_indices sample_domain = repeat true (nrows X)).
  { rewrite <- (map_id (extract_source_indices sample_domain)).
    rewrite <- (map_ext (fun b => negb (negb b)) (fun b => b) negb_involutive).
    rewrite <- map_map, Hm, map_negb_repeat. reflexivity. }
  split; [exact Hm'|].
  rewrite Hm'. unfold mask_rows, nrows.
  rewrite bool_index_all_true. now destruct X.
Qed.

(** ** SubspaceAlignmentAdapter *)

Lemma matmul_nrows (A B : ndarray) : nrows (matmul A B) = nrows A.
Proof. unfold nrows, matmul; cbn [rows]. apply length_map. Qed.

Section SubspaceAlignmentProperties.

Variable PCA : Type.
Variable rng : Type.
Variable pca_decompose : nat -> rng -> ndarray -> PCA * rng.
Variable pca_transform : PCA -> ndarray -> ndarray.
Variable components_ : PCA -> ndarray.

(** C3 (amended).  [adapt] maps the source block through the fitted source
    basis and then through [M_], and maps the target block through the
    fitted target basis and then through [M_] as well; the result is the
    merge of the two blocks. *)
Theorem sa_adapt_both_blocks_through_M
    (st : SA.fitted PCA) (X : ndarray) (sample_domain : list Z) :
  nrows (fst (source_target_split X sample_domain)) <> 0 ->
  nrows (snd (source_target_split X sample_domain)) <> 0 ->
  let X_source := fst (source_target_split X sample_domain) in
  let X_target := snd (source_target_split X sample_domain) in
  let out_source := matmul (pca_transform (SA.pca_source_ st) X_source) (SA.M_ st) in
  let out_target := matmul (pca_transform (SA.pca_target_ st) X_target) (SA.M_ st) in
  SA.adapt_blocks pca_transform st X sample_domain = (out_source, out_target)
  /\ SA.adapt pca_transform st X sample_domain
     = source_target_merge out_source out_target sample_domain.
Proof.
  intros Hs Ht X_source X_target out_source out_target.
  assert (Hb : SA.adapt_blocks pca_transform st X sample_domain
               = (out_source, out_target)).
  { unfold SA.adapt_blocks, check_X_domain.
    unfold out_source, out_target, X_source, X_target.
    destruct (source_target_split X sample_domain) as [Xs Xt].
    cbn [fst snd] in *.
    destruct (nrows Xs); [congruence|]. destruct (nrows Xt); [congruence|].
    reflexivity. }
  split; [exact Hb|]. unfold SA.adapt. now rewrite Hb.
Qed.

(** C9.  When the source block of the input has no rows, [adapt] hands it
    on untouched (zero rows, the column count of the input), transforms
    the target block, and returns the merge, which is the transformed
    target block; likewise with the roles of the blocks exchanged. *)
Theorem sa_adapt_empty_block
    (st : SA.fitted PCA) (X : ndarray) (sample_domain : list Z) :
  length sample_domain = nrows X ->
  let X_source := fst (source_target_split X sample_domain) in
  let X_target := snd (source_target_split X sample_domain) in
  let out_source := fst (SA.adapt_blocks pca_transform st X sample_domain) in
  let out_target := snd (SA.adapt_blocks pca_transform st X sample_domain) in
  nrows (pca_transform (SA.pca_source_ st) X_source) = nrows X_source ->
  nrows (pca_transform (SA.pca_target_ st) X_target) = nrows X_target ->
  (nrows X_source = 0 -> nrows X_target <> 0 ->
     out_source = X_source
     /\ nrows out_source = 0 /\ ncols out_source = ncols X
     /\ out_target = matmul (pca_transform (SA.pca_target_ st) X_target) (SA.M_ st)
     /\ SA.adapt pca_transform st X sample_domain = out_target)
  /\ (nrows X_target = 0 -> nrows X_source <> 0 ->
     out_target = X_target
     /\ nrows out_target = 0 /\ ncols out_target = ncols X
     /\ out_source = matmul (pca_transform (SA.pca_source_ st) X_source) (SA.M_ st)
     /\ SA.adapt pca_transform st X sample_domain = out_source).
Proof.
  intros Hlen. cbv zeta.
  unfold SA.adapt, SA.adapt_blocks, check_X_domain.
  pose proof (split_no_source X sample_domain Hlen) as NS.
  pose proof (split_no_target X sample_domain Hlen) as NT.
  assert (Hcs : ncols (fst (source_target_split X sample_domain)) = ncols X)
    by reflexivity.
  assert (Hct : ncols (snd (source_target_split X sample_domain)) = ncols X)
    by reflexivity.
  destruct (source_target_split X sample_domain) as [Xs Xt].
  cbn [fst snd] in *. intros HTs HTt.
  split; intros H0 Hne.
  - destruct (NS H0) as [Hmask HXt]. rewrite H0.
    destruct (nrows Xt) eqn:En; [congruence|]. cbn [fst snd].
    repeat split; try assumption.
    unfold source_target_merge. rewrite H0, Hmask.
    assert (Hr : rows Xs = []) by now apply length_zero_iff_nil.
    rewrite Hr.
    assert (Hn : nrows X
                 = length (rows (matmul (pca_transform (SA.pca_target_ st) Xt)
                                        (SA.M_ st)))).
    { fold (nrows (matmul (pca_transform (SA.pca_target_ st) Xt) (SA.M_ st))).
      rewrite matmul_nrows, HTt, <- HXt. exact En. }
    rewrite Hn, merge_rows_all_target. reflexivity.
  - destruct (NT H0) as [Hmask HXs]. rewrite H0.
    destruct (nrows Xs) eqn:En; [congruence|]. cbn [fst snd].
    repeat split; try assumption.
    unfold source_target_merge. rewrite Hmask.
    assert (Hr : rows Xt = []) by now apply length_zero_iff_nil.
    rewrite Hr.
    assert (Hn : nrows X
                 = length (rows (matmul (pca_transform (SA.pca_source_ st) Xs)
                                        (SA.M_ st)))).
    { fold (nrows (matmul (pca_transform (SA.pca_source_ st) Xs) (SA.M_ st))).
      rewrite matmul_nrows, HTs, <- HXs. exact En. }
    rewrite Hn, merge_rows_all_source.
    rewrite matmul_nrows, HTs. reflexivity.
Qed.

(** C4 (the code departs from the claim).  When a domain block has fewer
    rows than [min(n_samples, n_features)] of the combined input, [fit]
    with [n_components] equal to that bound, which is also the default
    the adapter computes for itself, raises the invalid-configuration
    error. *)
Theorem sa_fit_rejects_combined_bound
    (self : SA.params rng) (X : ndarray) (sample_domain : list Z) :
  let X_source := fst (source_target_split X sample_domain) in
  let X_target := snd (source_target_split X sample_domain) in
  let bound := Nat.min (nrows X) (ncols X) in
  SA.n_components self = None \/ SA.n_components self = Some bound ->
  nrows X_source <> 0 -> nrows X_target <> 0 ->
  Nat.min (nrows X_source) (nrows X_target) < bound ->
  SA.fit pca_decompose components_ self X sample_domain
    = Err ValueError_n_components.
Proof.
  intros X_source X_target bound Hn Hs Ht Hlt.
  unfold SA.fit, check_X_domain.
  assert (Hk : match SA.n_components self with
               | None => Nat.min (nrows X) (ncols X)
               | Some k => k
               end = bound) by (destruct Hn as [-> | ->]; reflexivity).
  rewrite Hk.
  rewrite (surjective_pairing (source_target_split X sample_domain)).
  fold X_source X_target.
  assert (Hcs : ncols X_source = ncols X) by reflexivity.
  assert (Hct : ncols X_target = ncols X) by reflexivity.
  unfold SA.PCA_fit.
  destruct (Nat.eqb_spec (nrows X_source) 0) as [|_]; [contradiction|].
  destruct (Nat.ltb_spec (Nat.min (nrows X_source) (ncols X_source)) bound)
    as [_|Hge]; [reflexivity|].
  destruct (pca_decompose bound (SA.random_state self) X_source) as [ps rs1].
  cbn [bind].
  destruct (Nat.eqb_spec (nrows X_target) 0) as [|_]; [contradiction|].
  destruct (Nat.ltb_spec (Nat.min (nrows X_target) (ncols X_target)) bound)
    as [_|Hge']; [reflexivity|].
  unfold bound in *. lia.
Qed.

End SubspaceAlignmentProperties.

(** ** The order of [np.argsort] *)

Lemma key_lt_trans (a b c : Z * Z * Z) : key_lt a b -> key_lt b c -> key_lt a c.
Proof.
  destruct a as [[a1 a2] a3], b as [[b1 b2] b3], c as [[c1 c2] c3].
  unfold key_lt. lia.
Qed.

Lemma key_lt_irrefl (a : Z * Z * Z) : ~ key_lt a a.
Proof. destruct a as [[a1 a2] a3]. unfold key_lt. lia. Qed.

Lemma key_lt_total (a b : Z * Z * Z) : key_lt a b \/ a = b \/ key_lt b a.
Proof.
  destruct a as [[a1 a2] a3], b as [[b1 b2] b3]. unfold key_lt.
  destruct (Z.lt_total a1 b1) as [|[|]]; [lia| |lia].
  destruct (Z.lt_total a2 b2) as [|[|]]; [lia| |lia].
  destruct (Z.lt_total a3 b3) as [|[|]]; [lia| |lia].
  right; left. congruence.
Qed.

(** [SFcompare] on two numbers agrees with the order of their keys. *)
Lemma compare_key (a b : float) :
  is_nan a = false -> is_nan b = false ->
  match SFcompare a b with
  | Some Lt => key_lt (float_key a) (float_key b)
  | Some Eq => float_key a = float_key b
  | Some Gt => key_lt (float_key b) (float_key a)
  | None => False
  end.
Proof.
  destruct a as [sa|sa| |sa ma ea]; try discriminate;
    destruct b as [sb|sb| |sb mb eb]; try discriminate; intros _ _;
    try (destruct sa); try (destruct sb); cbn; try lia; try reflexivity.
  - change (Pos.compare_cont Eq ma mb) with (Pos.compare ma mb).
    destruct (Z.compare_spec ea eb) as [He|He|He]; try lia.
    destruct (Pos.compare_spec ma mb) as [Hm|Hm|Hm]; cbn; subst; try lia.
    reflexivity.
  - change (Pos.compare_cont Eq ma mb) with (Pos.compare ma mb).
    destruct (Z.compare_spec ea eb) as [He|He|He]; try lia.
    destruct (Pos.compare_spec ma mb) as [Hm|Hm|Hm]; cbn; subst; try lia.
    reflexivity.
Qed.

Lemma np_lt_key (a b : float) :
  np_lt a b = true <-> key_lt (float_key a) (float_key b).
Proof.
  unfold np_lt, ltb, SFltb.
  destruct (is_nan a) eqn:Ea; destruct (is_nan b) eqn:Eb.
  - destruct a; try discriminate. destruct b; try discriminate.
    cbn. split; [discriminate|lia].
  - destruct a; try discriminate.
    destruct b as [sb|sb| |sb mb eb]; try discriminate;
      try (destruct sb); cbn; (split; [discriminate|lia]).
  - destruct b; try discriminate.
    destruct a as [sa|sa| |sa ma ea]; try discriminate;
      try (destruct sa); cbn; (split; [lia|reflexivity]).
  - pose proof (compare_key a b Ea Eb) as H.
    pose proof (key_lt_irrefl (float_key a)) as Hi.
    destruct (SFcompare a b) as [[| |]|]; cbn; rewrite ?Bool.andb_false_r;
      split; try discriminate; try reflexivity; try tauto; intros Hlt.
    + exfalso. rewrite H in Hlt. exact (key_lt_irrefl _ Hlt).
    + exfalso. apply Hi. exact (key_lt_trans _ _ _ Hlt H).
Qed.

Lemma leb_key (a b : float) :
  is_nan a = false -> is_nan b = false ->
  (leb a b = true <-> ~ key_lt (float_key b) (float_key a)).
Proof.
  intros Ea Eb. unfold leb, SFleb.
  pose proof (compare_key a b Ea Eb) as H.
  pose proof (key_lt_irrefl (float_key a)) as Hi.
  destruct (SFcompare a b) as [[| |]|]; split; try reflexivity;
    try discriminate; try tauto; intros Hlt.
  - intros H'. rewrite H in H'. exact (key_lt_irrefl _ H').
  - intros H'. apply Hi. exact (key_lt_trans _ _ _ H H').
Qed.

Lemma eqb_key (a b : float) :
  is_nan a = false -> is_nan b = false ->
  (eqb a b = true <-> float_key a = float_key b).
Proof.
  intros Ea Eb. unfold eqb, SFeqb.
  pose proof (compare_key a b Ea Eb) as H.
  pose proof (key_lt_irrefl (float_key a)) as Hi.
  destruct (SFcompare a b) as [[| |]|]; split; try reflexivity;
    try discriminate; try tauto; intros He.
  - rewrite He in H. exfalso. exact (key_lt_irrefl _ H).
  - rewrite He in H. exfalso. exact (key_lt_irrefl _ H).
Qed.

Lemma insert_index_In (v : vector) (i : nat) (l : list nat) (x : nat) :
  In x (insert_index v i l) <-> x = i \/ In x l.
Proof.
  induction l as [|j l IH]; simpl.
  - intuition congruence.
  - destruct (np_lt (nth i v zero) (nth j v zero)); simpl.
    + intuition congruence.
    + rewrite IH. intuition congruence.
Qed.

Lemma insert_index_length (v : vector) (i : nat) (l : list nat) :
  length (insert_index v i l) = S (length l).
Proof.
  induction l as [|j l IH]; simpl; [reflexivity|].
  destruct (np_lt _ _); simpl; [reflexivity|now rewrite IH].
Qed.

Lemma insert_index_NoDup (v : vector) (i : nat) (l : list nat) :
  NoDup l -> ~ In i l -> NoDup (insert_index v i l).
Proof.
  induction l as [|j l IH]; simpl; intros Hnd Hni.
  - constructor; [intros []|constructor].
  - destruct (np_lt _ _).
    + constructor; [simpl; exact Hni|exact Hnd].
    + inversion Hnd as [|? ? Hj Hl]; subst.
      constructor.
      * rewrite insert_index_In. intuition.
      * apply IH; [exact Hl|intuition].
Qed.

Lemma insert_index_sorted (v : vector) (i : nat) (l : list nat) :
  StronglySorted (sorted_before v) l ->
  Forall (fun j => j < i) l ->
  StronglySorted (sorted_before v) (insert_index v i l).
Proof.
  induction l as [|j l IH]; simpl; intros Hs Hlt.
  - constructor; constructor.
  - apply StronglySorted_inv in Hs. destruct Hs as [Hs Hj].
    inversion Hlt as [|? ? Hji Hlt']; subst.
    destruct (np_lt (nth i v zero) (nth j v zero)) eqn:E.
    + apply np_lt_key in E.
      constructor; [constructor; assumption|].
      constructor; [left; exact E|].
      rewrite Forall_forall in Hj |- *. intros k Hk.
      destruct (Hj k Hk) as [H|[H _]]; left.
      * exact (key_lt_trans _ _ _ E H).
      * unfold sorted_before in *. cbv zeta in *. now rewrite <- H.
    + constructor; [apply IH; assumption|].
      rewrite Forall_forall in Hj |- *. intros k Hk.
      apply insert_index_In in Hk. destruct Hk as [->|Hk]; [|now apply Hj].
      unfold sorted_before. cbv zeta.
      destruct (key_lt_total (float_key (nth j v zero))
                             (float_key (nth i v zero))) as [H|[H|H]].
      * left; exact H.
      * right; split; assumption.
      * apply np_lt_key in H. congruence.
Qed.

(** [stable_argsort] returns the indices of its argument, each once, in the
    order [sorted_before]. *)
Lemma argsort_prefix (v : vector) (m : nat) :
  let acc := fold_left (fun acc i => insert_index v i acc) (seq 0 m) [] in
  StronglySorted (sorted_before v) acc
  /\ (forall x, In x acc <-> x < m)
  /\ NoDup acc
  /\ length acc = m.
Proof.
  induction m as [|m IH]; cbv zeta.
  - simpl. split; [constructor|]. split; [|split; [constructor|reflexivity]].
    intros x. split; [intros []|lia].
  - rewrite seq_S, fold_left_app. cbn [fold_left Nat.add].
    cbv zeta in IH. destruct IH as (Hs & Hin & Hnd & Hlen).
    set (acc := fold_left _ (seq 0 m) []) in *.
    repeat split.
    + apply insert_index_sorted; [exact Hs|].
      apply Forall_forall. intros x Hx. now apply Hin.
    + rewrite insert_index_In, Hin. lia.
    + rewrite insert_index_In, Hin. lia.
    + apply insert_index_NoDup; [exact Hnd|]. rewrite Hin. lia.
    + now rewrite insert_index_length, Hlen.
Qed.

Lemma StronglySorted_nth {A : Type} (R : A -> A -> Prop) (l : list A) :
  StronglySorted R l ->
  forall p q a b, p < q ->
    nth_error l p = Some a -> nth_error l q = Some b -> R a b.
Proof.
  induction 1 as [|x l Hs IH Hx]; intros p q a b Hpq Ha Hb.
  - destruct p; discriminate.
  - destruct q as [|q]; [lia|]. simpl in Hb.
    destruct p as [|p]; simpl in Ha.
    + inversion Ha; subst. rewrite Forall_forall in Hx.
      apply Hx. eapply nth_error_In; eassumption.
    + apply (IH p q); [lia|assumption|assumption].
Qed.

Lemma stable_argsort_sorted (v : vector) :
  StronglySorted (sorted_before v) (stable_argsort v)
  /\ (forall x, In x (stable_argsort v) <-> x < length v)
  /\ NoDup (stable_argsort v)
  /\ length (stable_argsort v) = length v.
Proof. exact (argsort_prefix v (length v)). Qed.

Lemma sorted_before_ascending (v : vector) (i j : nat) :
  sorted_before v i j -> ascending_order v i j.
Proof.
  unfold sorted_before, ascending_order. cbv zeta. intros H.
  destruct (np_lt (nth j v zero) (nth i v zero)) eqn:E; [|reflexivity].
  apply np_lt_key in E. exfalso. destruct H as [H|[H _]].
  - exact (key_lt_irrefl _ (key_lt_trans _ _ _ H E)).
  - rewrite H in E. exact (key_lt_irrefl _ E).
Qed.

Lemma StronglySorted_weaken {A : Type} (R S : A -> A -> Prop) (l : list A) :
  (forall a b, R a b -> S a b) ->
  StronglySorted R l -> StronglySorted S l.
Proof.
  intros HRS. induction 1 as [|x l Hs IH Hx]; constructor; [exact IH|].
  rewrite Forall_forall in *. intros y Hy. apply HRS, Hx, Hy.
Qed.

(** The stable sort is one of the sorts [np.argsort] may be. *)
Lemma stable_argsort_meets_spec : np_argsort_spec stable_argsort.
Proof.
  intros v. destruct (stable_argsort_sorted v) as (Hs & Hin & Hnd & Hlen).
  split; [|split; [exact Hin|split; [exact Hnd|exact Hlen]]].
  exact (@StronglySorted_weaken nat (sorted_before v) (ascending_order v)
           (stable_argsort v) (@sorted_before_ascending v) Hs).
Qed.

Lemma nth_error_firstn_some {A : Type} (n : nat) (l : list A) (p : nat) (a : A) :
  nth_error (firstn n l) p = Some a -> p < n /\ nth_error l p = Some a.
Proof.
  rewrite nth_error_firstn.
  destruct (Nat.ltb_spec p n); [now split|discriminate].
Qed.

(** Two values in ascending order, neither of them NaN, compare with [<=]. *)
Lemma ascending_order_leb (v : vector) (i j : nat) :
  is_nan (nth i v zero) = false -> is_nan (nth j v zero) = false ->
  ascending_order v i j -> leb (nth i v zero) (nth j v zero) = true.
Proof.
  intros Hi Hj H. apply leb_key; [exact Hi|exact Hj|].
  intros Hlt. apply np_lt_key in Hlt. unfold ascending_order in H.
  rewrite H in Hlt. discriminate.
Qed.

Section SortedSelection.

Variable argsort : vector -> list nat.
Hypothesis argsort_ok : np_argsort_spec argsort.

(** Reading [argsort(v)[::-1]] from the front walks [argsort(v)] backwards. *)
Lemma argsort_reversed_nth (v : vector) (p q i j : nat) :
  p < q ->
  nth_error (rev (argsort v)) p = Some i ->
  nth_error (rev (argsort v)) q = Some j ->
  exists p' q',
    p' < q'
    /\ nth_error (argsort v) p' = Some j
    /\ nth_error (argsort v) q' = Some i.
Proof.
  intros Hpq Hi Hj.
  rewrite nth_error_rev in Hi, Hj.
  destruct (Nat.ltb_spec p (length (argsort v))); [|discriminate].
  destruct (Nat.ltb_spec q (length (argsort v))); [|discriminate].
  exists (length (argsort v) - S q), (length (argsort v) - S p).
  split; [lia|]. split; assumption.
Qed.

Lemma argsort_magnitudes (eigvals : vector) (p q i j : nat) :
  Forall (fun x => is_nan x = false) eigvals ->
  p < q ->
  nth_error (argsort (map abs eigvals)) p = Some j ->
  nth_error (argsort (map abs eigvals)) q = Some i ->
  leb (abs (nth j eigvals zero)) (abs (nth i eigvals zero)) = true.
Proof.
  intros Hnan Hpq Hj Hi.
  destruct (argsort_ok (map abs eigvals)) as (Hs & _ & _ & _).
  assert (Hm : forall k, nth k (map abs eigvals) zero
                         = abs (nth k eigvals zero)).
  { intros k. change zero with (abs zero) at 1. apply map_nth. }
  assert (Hn : forall k, is_nan (abs (nth k eigvals zero)) = false).
  { intros k.
    destruct (Nat.lt_ge_cases k (length eigvals)) as [Hk|Hk].
    - rewrite Forall_forall in Hnan.
      specialize (Hnan _ (nth_In eigvals zero Hk)).
      now destruct (nth k eigvals zero).
    - now rewrite nth_overflow. }
  rewrite <- !Hm.
  apply ascending_order_leb; [rewrite Hm; apply Hn|rewrite Hm; apply Hn|].
  exact (StronglySorted_nth Hs Hpq Hj Hi).
Qed.

(** C7 (amended).  When no eigenvalue is NaN, [fit] selects [n_components]
    distinct indices (all of them if there are fewer) by descending absolute
    eigenvalue, whatever sort [np.argsort] is: along the selection the
    magnitudes never increase, any two selected indices come in the reverse
    of the order [np.argsort] left them in (which is all that decides the
    order of equal magnitudes), and no index left out has a magnitude above
    that of a selected one. *)
Theorem tca_selected_components_descending
    (n_components : nat) (eigvals : vector) :
  Forall (fun x => is_nan x = false) eigvals ->
  let selected := TCA.selected_components argsort n_components eigvals in
  let mag k := abs (nth k eigvals zero) in
  length selected = Nat.min n_components (length eigvals)
  /\ NoDup selected
  /\ (forall i, In i selected -> i < length eigvals)
  /\ (forall p q i j, p < q ->
        nth_error selected p = Some i -> nth_error selected q = Some j ->
        leb (mag j) (mag i) = true
        /\ exists p' q',
             p' < q'
             /\ nth_error (argsort (map abs eigvals)) p' = Some j
             /\ nth_error (argsort (map abs eigvals)) q' = Some i)
  /\ (forall i j, In i selected -> j < length eigvals -> ~ In j selected ->
        leb (mag j) (mag i) = true).
Proof.
  intros Hnan selected mag.
  destruct (argsort_ok (map abs eigvals)) as (Hs & Hin & Hnd & Hlen).
  rewrite length_map in Hlen.
  assert (Hin' : forall x, In x (rev (argsort (map abs eigvals)))
                           <-> x < length eigvals).
  { intros x. rewrite <- in_rev, Hin, length_map. reflexivity. }
  unfold selected, TCA.selected_components.
  split; [now rewrite length_firstn, length_rev, Hlen|].
  split.
  { apply NoDup_rev in Hnd.
    rewrite <- (firstn_skipn n_components (rev (argsort (map abs eigvals))))
      in Hnd.
    exact (NoDup_app_remove_r _ _ Hnd). }
  split.
  { intros i Hi. apply Hin'. rewrite <- (firstn_skipn n_components).
    apply in_or_app. left. exact Hi. }
  split.
  - intros p q i j Hpq Hi Hj.
    apply nth_error_firstn_some in Hi, Hj.
    destruct Hi as [_ Hi], Hj as [_ Hj].
    destruct (argsort_reversed_nth _ Hpq Hi Hj) as (p' & q' & Hlt & Hj' & Hi').
    split; [exact (argsort_magnitudes Hnan Hlt Hj' Hi')|].
    exists p', q'. split; [exact Hlt|]. split; assumption.
  - intros i j Hi Hj Hnj.
    apply In_nth_error in Hi. destruct Hi as [p Hp].
    apply nth_error_firstn_some in Hp. destruct Hp as [Hpn Hp].
    apply Hin' in Hj. apply In_nth_error in Hj. destruct Hj as [q Hq].
    assert (Hqn : n_components <= q).
    { destruct (Nat.lt_ge_cases q n_components) as [Hlt|Hge]; [|exact Hge].
      exfalso. apply Hnj. apply nth_error_In with (n := q).
      rewrite nth_error_firstn.
      destruct (Nat.ltb_spec q n_components); [exact Hq|lia]. }
    destruct (@argsort_reversed_nth _ p q i j ltac:(lia) Hp Hq)
      as (p' & q' & Hlt & Hj' & Hi').
    exact (argsort_magnitudes Hnan Hlt Hj' Hi').
Qed.

End SortedSelection.

(** ** Value equality of arrays *)

Lemma eqb_refl (x : float) : is_nan x = false -> eqb x x = true.
Proof. intros H. now apply eqb_key. Qed.

Lemma vector_equal_refl (u : vector) :
  Forall (fun x => is_nan x = false) u -> vector_equal u u = true.
Proof.
  intros H. unfold vector_equal. rewrite Nat.eqb_refl. cbn [andb].
  induction H as [|x u Hx Hu IH]; simpl; [reflexivity|].
  now rewrite (eqb_refl x Hx), IH.
Qed.

Lemma array_equal_refl (X : ndarray) : no_nan X -> array_equal X X = true.
Proof.
  intros H. unfold array_equal. rewrite !Nat.eqb_refl. cbn [andb].
  unfold no_nan in H.
  induction H as [|r l Hr Hl IH]; simpl; [reflexivity|].
  now rewrite (vector_equal_refl Hr), IH.
Qed.

Lemma Forall_bool_index {A : Type} (P : A -> Prop) (mask : list bool)
    (l : list A) :
  Forall P l -> Forall P (bool_index mask l).
Proof.
  intros H. revert mask. induction H as [|x l Hx Hl IH]; intros [|b mask];
    simpl; try constructor.
  destruct b; [constructor; [exact Hx|apply IH]|apply IH].
Qed.

Lemma no_nan_mask_rows (mask : list bool) (X : ndarray) :
  no_nan X -> no_nan (mask_rows mask X).
Proof. apply Forall_bool_index. Qed.

Lemma bool_index_lengths {A : Type} (mask : list bool) (l : list A) :
  length mask = length l ->
  length (bool_index mask l) + length (bool_index (map negb mask) l)
    = length l.
Proof.
  revert l. induction mask as [|b mask IH]; intros [|x l] H; simpl in *;
    try discriminate; try reflexivity.
  specialize (IH l ltac:(lia)). destruct b; simpl; lia.
Qed.

Lemma split_nrows (X : ndarray) (sample_domain : list Z) :
  length sample_domain = nrows X ->
  nrows (fst (source_target_split X sample_domain))
  + nrows (snd (source_target_split X sample_domain)) = nrows X.
Proof.
  intros H. unfold source_target_split, nrows, mask_rows. cbn [fst snd rows].
  apply bool_index_lengths. now rewrite extract_source_indices_length.
Qed.

Lemma map2_map_map {A B C D : Type} (f : B -> C -> D) (g : A -> B)
    (h : A -> C) (l : list A) :
  map2 f (map g l) (map h l) = map (fun x => f (g x) (h x)) l.
Proof. induction l as [|x l IH]; [reflexivity|]. cbn. f_equal. exact IH. Qed.

(** ** Kernel adapters: [adapt] *)

Section KernelAdapt.

Variable kernel : vector -> vector -> float.
Variable solve : ndarray -> ndarray -> result ndarray.
Variable eigh : ndarray -> result (vector * ndarray).
Variable argsort : vector -> list nat.

(** What [fit] stores. *)
Lemma tca_fit_stores (self : TCA.params) (X : ndarray)
    (sample_domain : list Z) (st : TCA.fitted) :
  TCA.fit kernel solve eigh argsort self X sample_domain = Ok st ->
  TCA.X_source_ st = fst (source_target_split X sample_domain)
  /\ TCA.X_target_ st = snd (source_target_split X sample_domain)
  /\ TCA.K_ st = TCA.kernel_matrix kernel (TCA.X_source_ st) (TCA.X_target_ st).
Proof.
  unfold TCA.fit, check_X_domain.
  destruct (source_target_split X sample_domain) as [Xs Xt]. cbn [fst snd].
  destruct (py_truediv _ _) as [css|]; [|discriminate]. cbn [bind].
  destruct (py_truediv _ _) as [ctt|]; [|discriminate]. cbn [bind].
  destruct (py_truediv _ _) as [cst|]; [|discriminate]. cbn [bind].
  destruct (py_truediv _ _) as [c|]; [|discriminate]. cbn [bind].
  destruct (solve _ _) as [solution|]; [|discriminate]. cbn [bind].
  destruct (eigh _) as [[eigvals eigvects]|]; [|discriminate]. cbn [bind].
  intros H. inversion H; subst. cbn. repeat split.
Qed.

(** Both branches of TCA's [adapt], as the code selects them. *)
Lemma tca_adapt_branches (st : TCA.fitted) (X : ndarray)
    (sample_domain : list Z) :
  TCA.adapt kernel st X sample_domain
  = if array_equal (fst (source_target_split X sample_domain))
                   (TCA.X_source_ st)
       && array_equal (snd (source_target_split X sample_domain))
                      (TCA.X_target_ st)
    then take_rows (nrows X) (matmul (TCA.K_ st) (TCA.eigvects_ st))
    else take_rows (nrows X)
           (matmul (np_concatenate_axis1
                      (pairwise_kernels kernel X (TCA.X_source_ st))
                      (pairwise_kernels kernel X (TCA.X_target_ st)))
                   (TCA.eigvects_ st)).
Proof.
  unfold TCA.adapt, check_X_domain.
  now destruct (source_target_split X sample_domain).
Qed.

(** C5.  On the data it was fitted on, TCA's [adapt] reuses the stored
    kernel matrix and returns [K_ @ eigvects_] cut to the number of
    input rows; on any input, it does so exactly when both blocks equal the
    stored ones by value, and otherwise projects the concatenated
    cross-kernel matrices of the input against the stored blocks. *)
Theorem tca_adapt_reuses_or_recomputes
    (self : TCA.params) (X : ndarray) (sample_domain : list Z)
    (st : TCA.fitted) :
  TCA.fit kernel solve eigh argsort self X sample_domain = Ok st ->
  no_nan X ->
  TCA.adapt kernel st X sample_domain
    = take_rows (nrows X) (matmul (TCA.K_ st) (TCA.eigvects_ st))
  /\ forall (X' : ndarray) (sample_domain' : list Z),
       let X_source := fst (source_target_split X' sample_domain') in
       let X_target := snd (source_target_split X' sample_domain') in
       TCA.adapt kernel st X' sample_domain'
       = if array_equal X_source (TCA.X_source_ st)
            && array_equal X_target (TCA.X_target_ st)
         then take_rows (nrows X') (matmul (TCA.K_ st) (TCA.eigvects_ st))
         else
           let Ks := pairwise_kernels kernel X' (TCA.X_source_ st) in
           let Kt := pairwise_kernels kernel X' (TCA.X_target_ st) in
           take_rows (nrows X')
             (matmul (np_concatenate_axis1 Ks Kt) (TCA.eigvects_ st)).
Proof.
  intros Hfit Hnan.
  destruct (tca_fit_stores _ _ _ Hfit) as (Hs & Ht & _).
  split; [|intros X' sd'; apply tca_adapt_branches].
  rewrite tca_adapt_branches, Hs, Ht.
  rewrite !array_equal_refl; [reflexivity| |];
    unfold source_target_split; cbn [fst snd];
    now apply no_nan_mask_rows.
Qed.

(** The recomputing branch embeds every input row where it stands. *)
Lemma recompute_rows (X X_source_ X_target_ P : ndarray) :
  rows (matmul (np_concatenate_axis1 (pairwise_kernels kernel X X_source_)
                                     (pairwise_kernels kernel X X_target_)) P)
  = map (kernel_embed kernel X_source_ X_target_ P) (rows X).
Proof.
  unfold matmul, np_concatenate_axis1, pairwise_kernels. cbn [rows].
  rewrite map2_map_map, map_map. reflexivity.
Qed.

(** The rows of the combined kernel matrix, source rows first. *)
Lemma kernel_matrix_rows (X_source X_target : ndarray) :
  transpose (pairwise_kernels kernel X_source X_target)
    = pairwise_kernels kernel X_target X_source ->
  rows (TJM._get_kernel_matrix kernel X_source X_target)
  = map (fun x => map (kernel x) (rows X_source)
                  ++ map (kernel x) (rows X_target))
        (rows X_source ++ rows X_target).
Proof.
  intros Hsym. unfold TJM._get_kernel_matrix, np_block. cbn [rows].
  rewrite Hsym. unfold pairwise_kernels. cbn [rows].
  rewrite !map2_map_map, map_app. reflexivity.
Qed.

(** C2 (the code departs from the claim).  When [adapt] gets the data the
    adapter was fitted on, with a kernel that is symmetric on it, TCA and
    TJM take the reuse branch and return the embedded source rows followed
    by the embedded target rows, whatever the order of the domain labels;
    the recomputing branch returns the embedded input rows in input
    order. *)
Theorem kernel_adapt_reuse_is_source_first
    (P : ndarray) (X : ndarray) (sample_domain : list Z) :
  let X_source := fst (source_target_split X sample_domain) in
  let X_target := snd (source_target_split X sample_domain) in
  let embed := kernel_embed kernel X_source X_target P in
  length sample_domain = nrows X ->
  no_nan X ->
  transpose (pairwise_kernels kernel X_source X_target)
    = pairwise_kernels kernel X_target X_source ->
  rows (TCA.adapt kernel
          (TCA.mk_fitted X_source X_target
             (TCA.kernel_matrix kernel X_source X_target) P)
          X sample_domain)
    = map embed (rows X_source ++ rows X_target)
  /\ rows (TJM.adapt kernel (TJM.mk_fitted X_source X_target P)
             X sample_domain)
    = map embed (rows X_source ++ rows X_target)
  /\ rows (matmul (np_concatenate_axis1
                     (pairwise_kernels kernel X X_source)
                     (pairwise_kernels kernel X X_target)) P)
    = map embed (rows X).
Proof.
  intros X_source X_target embed Hlen Hnan Hsym.
  assert (Hs : array_equal X_source X_source = true)
    by (apply array_equal_refl, no_nan_mask_rows, Hnan).
  assert (Ht : array_equal X_target X_target = true)
    by (apply array_equal_refl, no_nan_mask_rows, Hnan).
  assert (HK : rows (matmul (TJM._get_kernel_matrix kernel X_source X_target) P)
               = map embed (rows X_source ++ rows X_target)).
  { unfold matmul. cbn [rows]. rewrite (kernel_matrix_rows Hsym).
    rewrite map_map. reflexivity. }
  split; [|split].
  - rewrite tca_adapt_branches. cbn [TCA.X_source_ TCA.X_target_ TCA.K_ TCA.eigvects_].
    fold X_source X_target. rewrite Hs, Ht. cbn [andb].
    unfold take_rows. cbn [rows].
    change (TCA.kernel_matrix kernel X_source X_target)
      with (TJM._get_kernel_matrix kernel X_source X_target).
    rewrite HK. apply firstn_all2.
    rewrite length_map, length_app.
    pose proof (split_nrows X sample_domain Hlen) as Hn.
    fold X_source X_target in Hn. unfold nrows in *. lia.
  - unfold TJM.adapt, check_X_domain.
    rewrite (surjective_pairing (source_target_split X sample_domain)).
    fold X_source X_target. cbn [TJM.X_source_ TJM.X_target_ TJM.A_].
    rewrite Hs, Ht. cbn [andb]. exact HK.
  - apply recompute_rows.
Qed.

End KernelAdapt.

(** ** TransferJointMatchingAdapter: whose rows "update G" reweights *)

Section TJMUpdateG.

Variable kernel : vector -> vector -> float.

(** Row [i] of the combined kernel matrix is computed from the [i]-th source
    sample, row [ns + j] from the [j]-th target sample. *)
Lemma get_kernel_matrix_source_row (X_source X_target : ndarray) (i : nat)
    (x : vector) :
  nth_error (rows X_source) i = Some x ->
  nth_error (rows (TJM._get_kernel_matrix kernel X_source X_target)) i
    = Some (map (kernel x) (rows X_source) ++ map (kernel x) (rows X_target)).
Proof.
  intros Hx. unfold TJM._get_kernel_matrix, np_block. cbn [rows].
  assert (Hi : i < nrows X_source) by (apply nth_error_Some; congruence).
  rewrite nth_error_app1.
  - exact (nth_error_map2 _ _ _ _
             (pairwise_kernels_row kernel X_source X_source i Hx)
             (pairwise_kernels_row kernel X_source X_target i Hx)).
  - rewrite map2_length. cbn [rows pairwise_kernels].
    rewrite !length_map, Nat.min_id. exact Hi.
Qed.

Lemma get_kernel_matrix_target_row (X_source X_target : ndarray) (j : nat)
    (t : vector) :
  nth_error (rows X_target) j = Some t ->
  nth_error (rows (TJM._get_kernel_matrix kernel X_source X_target))
            (nrows X_source + j)
    = Some (map (fun x => kernel x t) (rows X_source)
            ++ map (kernel t) (rows X_target)).
Proof.
  intros Ht. unfold TJM._get_kernel_matrix, np_block. cbn [rows].
  assert (Hj : j < nrows X_target) by (apply nth_error_Some; congruence).
  assert (Htop : length (map2 (@app float)
                   (rows (pairwise_kernels kernel X_source X_source))
                   (rows (pairwise_kernels kernel X_source X_target)))
                 = nrows X_source).
  { rewrite map2_length. cbn [rows pairwise_kernels].
    rewrite !length_map. apply Nat.min_id. }
  rewrite nth_error_app2 by (rewrite Htop; lia).
  rewrite Htop.
  replace (nrows X_source + j - nrows X_source) with j by lia.
  assert (HT : nth_error
                 (rows (transpose (pairwise_kernels kernel X_source X_target)))
                 j
               = Some (map (fun x => kernel x t) (rows X_source))).
  { unfold transpose. cbn [rows ncols pairwise_kernels].
    rewrite nth_error_map.
    rewrite nth_error_nth_some with (d := 0) by (rewrite length_seq; exact Hj).
    rewrite seq_nth by exact Hj. cbn [option_map Nat.add]. f_equal.
    unfold column. cbn [rows pairwise_kernels]. rewrite map_map.
    apply map_ext. intros x.
    apply nth_error_nth. now apply nth_error_map_some. }
  exact (nth_error_map2 _ _ _ _ HT
           (pairwise_kernels_row kernel X_target X_target j Ht)).
Qed.

(** C6 (the code departs from the claim).  In [fit] the rows of [K], and with
    them the rows of [A] and the diagonal of [G], are in source-first order:
    row [i] belongs to the [i]-th source sample and row [ns + j] to the
    [j]-th target sample.  "Update G" reads its mask by input position all
    the same: the entry of [G] at [i] is 1 when the label at input position
    [i] is a target label, and otherwise [1 / (2 * norm + 1e-10)] for a
    nonzero norm of row [i] of [A] and 0 for a zero one, whichever domain
    row [i] belongs to.  So the row of a source sample is forced to 1 when
    the input position of its index holds a target label, and the row of a
    target sample is weighted by its norm when that position holds a source
    label. *)
Theorem tjm_G_update_reads_input_order_mask
    (self : TJM.params) (X : ndarray) (sample_domain : list Z)
    (X_source X_target : ndarray) (env : TJM.env_t) (A : ndarray) :
  TJM.prepare kernel self X sample_domain = Ok (X_source, X_target, env) ->
  length sample_domain = nrows X ->
  nrows A = nrows X ->
  let K := TJM.env_K env in
  let G := TJM.update_G (TJM.env_n env) (TJM.env_source_mask env) A in
  let by_norm i :=
    let norm := norm2 (nth i (rows A) []) in
    if neqb norm zero then div one (add (mul two norm) (pow10_neg 10))
    else zero in
  (forall i x,
     nth_error (rows X_source) i = Some x ->
     nth_error (rows K) i
       = Some (map (kernel x) (rows X_source)
               ++ map (kernel x) (rows X_target)))
  /\ (forall j t,
        nth_error (rows X_target) j = Some t ->
        nth_error (rows K) (nrows X_source + j)
          = Some (map (fun x => kernel x t) (rows X_source)
                  ++ map (kernel t) (rows X_target)))
  /\ (forall i, i < nrows X ->
        entry G i i
          = Some (if nth i (extract_source_indices sample_domain) false
                  then by_norm i else one))
  /\ (forall i x,
        nth_error (rows X_source) i = Some x ->
        nth i (extract_source_indices sample_domain) false = false ->
        entry G i i = Some one)
  /\ (forall j t,
        nth_error (rows X_target) j = Some t ->
        nth (nrows X_source + j) (extract_source_indices sample_domain) false
          = true ->
        entry G (nrows X_source + j) (nrows X_source + j)
          = Some (by_norm (nrows X_source + j))).
Proof.
  intros Hprep Hlen HA K G by_norm.
  assert (Henv : K = TJM._get_kernel_matrix kernel X_source X_target
                 /\ TJM.env_n env = nrows X
                 /\ TJM.env_source_mask env
                    = extract_source_indices sample_domain
                 /\ nrows X_source + nrows X_target = nrows X).
  { pose proof (split_nrows X sample_domain Hlen) as Hsum.
    revert Hprep Hsum. subst K. unfold TJM.prepare, check_X_domain.
    destruct (source_target_split X sample_domain) as [Xs Xt].
    destruct (py_truediv _ _) as [c|]; [|discriminate]. cbn [bind].
    destruct (TJM._get_mmd_matrix _ _ _) as [M|]; [|discriminate].
    cbn [bind fst snd]. intros H Hsum. inversion H; subst. cbn.
    repeat split. exact Hsum. }
  destruct Henv as (HK & Hn & Hmask & Hsum).
  assert (HGi : forall i, i < nrows X ->
            entry G i i
            = Some (if nth i (extract_source_indices sample_domain) false
                    then by_norm i else one)).
  2: { split; [|split; [|split; [exact HGi|split]]].
       - intros i x Hx. rewrite HK. now apply get_kernel_matrix_source_row.
       - intros j t Ht. rewrite HK. now apply get_kernel_matrix_target_row.
       - intros i x Hx Hlab.
         assert (Hi : i < nrows X_source) by (apply nth_error_Some; congruence).
         rewrite HGi by lia. now rewrite Hlab.
       - intros j t Ht Hlab.
         assert (Hj : j < nrows X_target) by (apply nth_error_Some; congruence).
         rewrite HGi by lia. now rewrite Hlab. }
  - intros i Hi. subst G. rewrite Hn, Hmask.
    assert (Hm : length (extract_source_indices sample_domain) = nrows X)
      by (unfold extract_source_indices; now rewrite length_map).
    assert (HG : length (TJM.G_diagonal (nrows X)
                           (extract_source_indices sample_domain) A)
                 = nrows X).
    { unfold TJM.G_diagonal.
      now rewrite mask_fill_length, mask_assign_length, repeat_length. }
    unfold TJM.update_G.
    rewrite np_diag_entry by (rewrite HG; exact Hi).
    rewrite (tjm_G_diagonal_nth (extract_source_indices sample_domain) A
               HA Hm Hi).
    now destruct (nth i (extract_source_indices sample_domain) false).
Qed.

End TJMUpdateG.
(** ** The properties on concrete data *)

Import Sample.

Lemma tjm_stops_after_first_iteration_witness :
  exists st,
    TJM.loop eigh_gen stable_argsort (tjm_defaults 5) tjm_env4 5
      (TJM.initial_state (tjm_defaults 5) tjm_env4) = Ok st
    /\ TJM.loop_iterations st = 1
    /\ TJM.loop_A st = Some tjm_A4.
Proof.
  apply (@tjm_stops_after_first_iteration eigh_gen stable_argsort
           (tjm_defaults 5) tjm_env4 tjm_A4 true 4);
    vm_compute; reflexivity.
Defined.

Lemma kernel_adapt_reuse_is_source_first_witness :
  let X_source := fst (source_target_split X4 interleaved) in
  let X_target := snd (source_target_split X4 interleaved) in
  let embed := kernel_embed linear_kernel X_source X_target P4 in
  rows (TCA.adapt linear_kernel
          (TCA.mk_fitted X_source X_target
             (TCA.kernel_matrix linear_kernel X_source X_target) P4)
          X4 interleaved)
    = map embed (rows X_source ++ rows X_target)
  /\ rows (TJM.adapt linear_kernel (TJM.mk_fitted X_source X_target P4)
             X4 interleaved)
    = map embed (rows X_source ++ rows X_target)
  /\ rows (matmul (np_concatenate_axis1
                     (pairwise_kernels linear_kernel X4 X_source)
                     (pairwise_kernels linear_kernel X4 X_target)) P4)
    = map embed (rows X4).
Proof.
  apply (@kernel_adapt_reuse_is_source_first linear_kernel P4 X4 interleaved).
  - reflexivity.
  - repeat constructor.
  - vm_compute; reflexivity.
Defined.

(** On the interleaved sample the reuse branch puts the embedding of the
    third input row at position 1, where the embedding of the second input
    row belongs. *)
Example tca_adapt_interleaved_rows_displaced :
  let X_source := fst (source_target_split X4 interleaved) in
  let X_target := snd (source_target_split X4 interleaved) in
  let embed := kernel_embed linear_kernel X_source X_target P4 in
  let out := TCA.adapt linear_kernel
               (TCA.mk_fitted X_source X_target
                  (TCA.kernel_matrix linear_kernel X_source X_target) P4)
               X4 interleaved in
  nth_error (rows out) 1 = option_map embed (nth_error (rows X4) 2)
  /\ nth_error (rows out) 1 <> option_map embed (nth_error (rows X4) 1).
Proof. vm_compute. split; [reflexivity|discriminate]. Qed.

Lemma sa_adapt_target_without_M_counterexample :
  let X_target := snd (source_target_split X_pair source_then_target) in
  snd (SA.adapt_blocks LinearPCA.transform sa_axes X_pair source_then_target)
    <> LinearPCA.transform (SA.pca_target_ sa_axes) X_target
  /\ nth_error
       (rows (SA.adapt LinearPCA.transform sa_axes X_pair source_then_target)) 1
     <> nth_error (rows (LinearPCA.transform (SA.pca_target_ sa_axes) X_target)) 0.
Proof. vm_compute. split; discriminate. Qed.

Lemma sa_adapt_both_blocks_through_M_witness :
  let X_source := fst (source_target_split X_pair source_then_target) in
  let X_target := snd (source_target_split X_pair source_then_target) in
  let out_source :=
    matmul (LinearPCA.transform (SA.pca_source_ sa_axes) X_source) (SA.M_ sa_axes) in
  let out_target :=
    matmul (LinearPCA.transform (SA.pca_target_ sa_axes) X_target) (SA.M_ sa_axes) in
  SA.adapt_blocks LinearPCA.transform sa_axes X_pair source_then_target
    = (out_source, out_target)
  /\ SA.adapt LinearPCA.transform sa_axes X_pair source_then_target
     = source_target_merge out_source out_target source_then_target.
Proof.
  apply (@sa_adapt_both_blocks_through_M LinearPCA.t LinearPCA.transform
           sa_axes X_pair source_then_target);
    vm_compute; discriminate.
Defined.

Lemma sa_fit_rejects_combined_bound_witness :
  SA.fit LinearPCA.decompose LinearPCA.comps (SA.mk_params None tt)
         X_wide source_first
    = Err ValueError_n_components.
Proof.
  apply (@sa_fit_rejects_combined_bound LinearPCA.t unit LinearPCA.decompose
           LinearPCA.comps (SA.mk_params None tt) X_wide source_first).
  - left; reflexivity.
  - vm_compute; discriminate.
  - vm_compute; discriminate.
  - vm_compute; lia.
Defined.

Lemma tca_adapt_reuses_or_recomputes_witness :
  TCA.adapt linear_kernel tca_fitted4 X4 interleaved
    = take_rows (nrows X4) (matmul (TCA.K_ tca_fitted4) (TCA.eigvects_ tca_fitted4)).
Proof.
  apply (@tca_adapt_reuses_or_recomputes linear_kernel solve eigh
           stable_argsort tca_defaults X4 interleaved tca_fitted4).
  - vm_compute; reflexivity.
  - repeat constructor.
Defined.

(** On the interleaved sample, row 1 of [K] is the row of the source sample
    [3] and its entry of [G] is forced to 1, while row 2 is the row of the
    target sample [2] and its entry follows the norm of its row of [A]. *)
Lemma tjm_G_update_reads_input_order_mask_witness :
  let K := TJM.env_K tjm_env4 in
  let G := TJM.update_G (TJM.env_n tjm_env4) (TJM.env_source_mask tjm_env4)
                        tjm_A4 in
  nth_error (rows K) 1 = Some (map of_Z [3; 9; 6; 12]%Z)
  /\ entry G 1 1 = Some one
  /\ nth_error (rows K) 2 = Some (map of_Z [2; 6; 4; 8]%Z)
  /\ entry G 2 2 = Some zero
  /\ entry G 0 0 = Some (S754_finite false 9007199254290632 (-54)).
Proof.
  destruct (@tjm_G_update_reads_input_order_mask linear_kernel
              (tjm_defaults 5) X4 interleaved
              (fst (source_target_split X4 interleaved))
              (snd (source_target_split X4 interleaved))
              tjm_env4 tjm_A4
              ltac:(vm_compute; reflexivity) eq_refl eq_refl)
    as (Hs & Ht & HG & Hsource & Htarget).
  split; [exact (Hs 1 [of_Z 3] eq_refl)|].
  split; [exact (Hsource 1 [of_Z 3] eq_refl eq_refl)|].
  split; [exact (Ht 0 [of_Z 2] eq_refl)|].
  split; [exact (Htarget 0 [of_Z 2] eq_refl eq_refl)|].
  exact (HG 0 ltac:(vm_compute; lia)).
Defined.

(** With a sort that keeps equal values in index order, which [np.argsort]
    may be, two equal magnitudes are selected in descending index order. *)
Lemma tca_selected_ties_by_index_counterexample :
  ~ (forall argsort : vector -> list nat,
       np_argsort_spec argsort ->
       let eigvals := [one; one] in
       let selected := TCA.selected_components argsort 2 eigvals in
       let mag k := abs (nth k eigvals zero) in
       forall p q i j, p < q ->
         nth_error selected p = Some i -> nth_error selected q = Some j ->
         eqb (mag i) (mag j) = true -> i < j).
Proof.
  intros H.
  specialize (H stable_argsort stable_argsort_meets_spec
                0 1 1 0 ltac:(lia) eq_refl eq_refl eq_refl).
  lia.
Qed.

Lemma tca_selected_components_descending_witness :
  TCA.selected_components stable_argsort 2 eigvals4 = [3; 1]
  /\ (forall p q i j, p < q ->
        nth_error (TCA.selected_components stable_argsort 2 eigvals4) p
          = Some i ->
        nth_error (TCA.selected_components stable_argsort 2 eigvals4) q
          = Some j ->
        leb (abs (nth j eigvals4 zero)) (abs (nth i eigvals4 zero)) = true).
Proof.
  split; [vm_compute; reflexivity|].
  destruct (@tca_selected_components_descending stable_argsort
              stable_argsort_meets_spec 2 eigvals4
              ltac:(repeat constructor)) as (_ & _ & _ & H & _).
  intros p q i j Hpq Hi Hj. exact (proj1 (H p q i j Hpq Hi Hj)).
Defined.

Lemma kernel_matrix_cross_blocks_symmetric_witness :
  let X_source := fst (source_target_split X4 interleaved) in
  let X_target := snd (source_target_split X4 interleaved) in
  exists k,
    entry (TJM._get_kernel_matrix linear_kernel X_source X_target) 1 (2 + 0)
      = Some k
    /\ entry (TJM._get_kernel_matrix linear_kernel X_source X_target) (2 + 0) 1
       = Some k.
Proof.
  exact (proj2 (@kernel_matrix_cross_blocks_symmetric linear_kernel
                  (fst (source_target_split X4 interleaved))
                  (snd (source_target_split X4 interleaved)) 1 0
                  ltac:(vm_compute; lia) ltac:(vm_compute; lia))).
Defined.

Lemma sa_adapt_empty_block_witness :
  fst (SA.adapt_blocks LinearPCA.transform sa_axes X_pair all_target)
    = fst (source_target_split X_pair all_target)
  /\ ncols (fst (SA.adapt_blocks LinearPCA.transform sa_axes X_pair all_target))
     = 2
  /\ SA.adapt LinearPCA.transform sa_axes X_pair all_target
     = snd (SA.adapt_blocks LinearPCA.transform sa_axes X_pair all_target).
Proof.
  destruct (@sa_adapt_empty_block LinearPCA.t LinearPCA.transform sa_axes
              X_pair all_target eq_refl eq_refl eq_refl) as [H _].
  destruct (H eq_refl ltac:(vm_compute; discriminate))
    as (H1 & _ & H3 & _ & H5).
  repeat split; assumption.
Defined.

(** * Further properties of the adapters *)

Unset Implicit Arguments.

(** ** TransferJointMatchingAdapter: the loop of [fit] *)

Section TJMFit.

Variable kernel : vector -> vector -> float.
Variable eigh_gen : ndarray -> ndarray -> result (vector * ndarray).
Variable argsort : vector -> list nat.

Lemma tjm_loop_bounds (self : TJM.params) (env : TJM.env_t) (remaining : nat) :
  forall st st',
    TJM.loop eigh_gen argsort self env remaining st = Ok st' ->
    TJM.loop_iterations st <= TJM.loop_iterations st'
    /\ TJM.loop_iterations st' <= TJM.loop_iterations st + remaining
    /\ (0 < remaining -> TJM.loop_iterations st < TJM.loop_iterations st')
    /\ TJM.loop_warnings st <= TJM.loop_warnings st'
    /\ TJM.loop_warnings st' - TJM.loop_warnings st
       <= TJM.loop_iterations st' - TJM.loop_iterations st
    /\ (0 < remaining \/ tjm_G_of_A env st -> tjm_G_of_A env st').
Proof.
  induction remaining as [|n IH]; intros st st' H.
  - cbn in H. inversion H; subst.
    split; [lia|]. split; [lia|]. split; [lia|]. split; [lia|]. split; [lia|].
    intros [Hn|Hst]; [lia|exact Hst].
  - cbn [TJM.loop] in H.
    destruct (TJM.update_A eigh_gen argsort self env (TJM.loop_G st)) as [[A warned]|e];
      [|discriminate].
    cbn [bind] in H.
    destruct (TJM.early_stop _ _ _).
    + inversion H; subst; clear H.
      cbn [TJM.loop_iterations TJM.loop_warnings].
      split; [lia|]. split; [lia|]. split; [lia|]. split; [lia|].
      split; [destruct warned; lia|].
      intros _. exists A. split; reflexivity.
    + apply IH in H.
      cbn [TJM.loop_iterations TJM.loop_warnings] in H.
      destruct H as (H0 & H1 & H2 & H3 & H4 & H5).
      split; [lia|]. split; [lia|]. split; [lia|]. split; [lia|].
      split; [destruct warned; lia|].
      intros _. apply H5. right. exists A. split; reflexivity.
Qed.


Lemma bool_index_length_le {A : Type} (mask : list bool) (l : list A) :
  length (bool_index mask l) <= length l.
Proof.
  revert l. induction mask as [|b mask IH]; intros [|x l]; simpl; try lia.
  specialize (IH l). destruct b; simpl; lia.
Qed.

Lemma py_truediv_ok (a b : Z) :
  b <> 0%Z -> py_truediv a b = Ok (div (of_Z a) (of_Z b)).
Proof.
  intros H. unfold py_truediv.
  destruct (Z.eqb_spec b 0); [contradiction|reflexivity].
Qed.

Lemma py_truediv_zero (a : Z) : py_truediv a 0 = Err ZeroDivisionError.
Proof. reflexivity. Qed.

(** [_get_mmd_matrix] divides by [ns**2], [nt**2] and [ns * nt]. *)
Lemma get_mmd_matrix_ok (ns nt : nat) (sample_domain : list Z) :
  ns <> 0 -> nt <> 0 ->
  exists M, TJM._get_mmd_matrix ns nt sample_domain = Ok M.
Proof.
  intros Hs Ht. unfold TJM._get_mmd_matrix.
  rewrite !py_truediv_ok by nia. cbn [bind]. eexists. reflexivity.
Qed.

Lemma tjm_prepare_ok (self : TJM.params) (X : ndarray) (sample_domain : list Z) :
  nrows (fst (source_target_split X sample_domain)) <> 0 ->
  nrows (snd (source_target_split X sample_domain)) <> 0 ->
  exists env,
    TJM.prepare kernel self X sample_domain
      = Ok (fst (source_target_split X sample_domain),
            snd (source_target_split X sample_domain), env).
Proof.
  intros Hs Ht. unfold TJM.prepare, check_X_domain.
  assert (Hn : nrows X <> 0).
  { intros H0. apply Hs. unfold source_target_split, mask_rows, nrows in *.
    cbn [fst rows].
    pose proof (bool_index_length_le (extract_source_indices sample_domain)
                  (rows X)). lia. }
  destruct (source_target_split X sample_domain) as [Xs Xt]. cbn [fst snd] in *.
  rewrite py_truediv_ok by lia. cbn [bind].
  destruct (get_mmd_matrix_ok _ _ sample_domain Hs Ht) as [M HM].
  rewrite HM. cbn [bind]. eexists. reflexivity.
Qed.

Lemma tjm_prepare_blocks (self : TJM.params) (X : ndarray)
    (sample_domain : list Z) (X_source X_target : ndarray) (env : TJM.env_t) :
  TJM.prepare kernel self X sample_domain = Ok (X_source, X_target, env) ->
  X_source = fst (source_target_split X sample_domain)
  /\ X_target = snd (source_target_split X sample_domain)
  /\ TJM.env_n env = nrows X
  /\ TJM.env_source_mask env = extract_source_indices sample_domain.
Proof.
  unfold TJM.prepare, check_X_domain.
  destruct (source_target_split X sample_domain) as [Xs Xt]. cbn [fst snd].
  destruct (py_truediv _ _) as [c|]; [|discriminate]. cbn [bind].
  destruct (TJM._get_mmd_matrix _ _ _) as [M|]; [|discriminate]. cbn [bind].
  intros H. inversion H; subst. cbn. repeat split.
Qed.

(** X1.  A successful [fit] of TJM ran at least one and at most [max_iter]
    iterations and emitted at most one accuracy warning per iteration; it
    stores the two blocks of its input together with the projection [A] of
    the last iteration it ran, and the [G] it ends with is the one "update
    G" computes from that projection. *)
Theorem tjm_fit_runs_within_max_iter
    (self : TJM.params) (X : ndarray) (sample_domain : list Z)
    (fitted : TJM.fitted) (st : TJM.loop_state) :
  TJM.fit_trace kernel eigh_gen argsort self X sample_domain = Ok (fitted, st) ->
  1 <= TJM.loop_iterations st <= TJM.max_iter self
  /\ TJM.loop_warnings st <= TJM.loop_iterations st
  /\ TJM.loop_A st = Some (TJM.A_ fitted)
  /\ TJM.loop_G st
     = TJM.update_G (nrows X) (extract_source_indices sample_domain)
                    (TJM.A_ fitted)
  /\ TJM.X_source_ fitted = fst (source_target_split X sample_domain)
  /\ TJM.X_target_ fitted = snd (source_target_split X sample_domain)
  /\ TJM.fit kernel eigh_gen argsort self X sample_domain = Ok fitted.
Proof.
  intros H. unfold TJM.fit. rewrite H. cbn [bind].
  unfold TJM.fit_trace in H.
  destruct (TJM.prepare kernel self X sample_domain) as [[[Xs Xt] env]|] eqn:Ep;
    [|discriminate].
  cbn [bind] in H.
  destruct (TJM.loop eigh_gen argsort self env (TJM.max_iter self)
              (TJM.initial_state self env)) as [st0|] eqn:El; [|discriminate].
  cbn [bind] in H.
  destruct (TJM.loop_A st0) as [A|] eqn:EA; [|discriminate].
  inversion H; subst; clear H.
  destruct (tjm_prepare_blocks _ _ _ _ _ _ Ep) as (HXs & HXt & Hn & Hmask).
  destruct (tjm_loop_bounds _ _ _ _ _ El) as (H0 & H1 & H2 & H3 & H4 & H5).
  cbn [TJM.initial_state TJM.loop_iterations TJM.loop_warnings] in *.
  assert (Hm : 0 < TJM.max_iter self).
  { destruct (TJM.max_iter self); [|lia].
    cbn in El. inversion El; subst. discriminate. }
  specialize (H2 Hm).
  destruct (H5 (or_introl Hm)) as (A' & HA' & HG).
  rewrite EA in HA'. inversion HA'; subst A'; clear HA'.
  rewrite Hn, Hmask in HG.
  cbn [TJM.A_ TJM.X_source_ TJM.X_target_].
  repeat split; try assumption; lia.
Qed.

(** X2.  With [max_iter = 0] the loop body of TJM's [fit] never runs: on
    finite data with at least one source and one target row, [A] is never
    assigned and [fit] fails at [self.A_ = A] with an [UnboundLocalError]. *)
Theorem tjm_fit_without_iterations_fails
    (self : TJM.params) (X : ndarray) (sample_domain : list Z) :
  all_finite X ->
  nrows (fst (source_target_split X sample_domain)) <> 0 ->
  nrows (snd (source_target_split X sample_domain)) <> 0 ->
  TJM.max_iter self = 0 ->
  TJM.fit kernel eigh_gen argsort self X sample_domain = Err UnboundLocalError.
Proof.
  intros _ Hs Ht Hm. unfold TJM.fit, TJM.fit_trace.
  destruct (tjm_prepare_ok self X sample_domain Hs Ht) as [env ->].
  cbn [bind]. rewrite Hm. reflexivity.
Qed.

End TJMFit.

(** ** The MMD matrix of TJM *)

Lemma map2_repeat {A B C : Type} (f : A -> B -> C) (a : A) (b : B) (n : nat) :
  map2 f (repeat a n) (repeat b n) = repeat (f a b) n.
Proof. induction n as [|n IH]; [reflexivity|]. cbn. f_equal. exact IH. Qed.

Lemma scaled_ones_rows (c : float) (n m : nat) :
  rows (np_scale c (np_ones n m)) = repeat (repeat (mul c one) m) n.
Proof. cbn. now rewrite !map_repeat. Qed.

Lemma transpose_constant_rows (b : float) (n m : nat) :
  rows (transpose (mk_ndarray m (repeat (repeat b m) n)))
  = repeat (repeat b n) m.
Proof.
  unfold transpose, column. cbn [rows ncols].
  transitivity (map (fun _ : nat => repeat b n) (seq 0 m)).
  - apply map_ext_in. intros j Hj. apply in_seq in Hj.
    rewrite map_repeat. f_equal. apply nth_repeat_lt. lia.
  - now rewrite map_const, length_seq.
Qed.

Lemma get_mmd_matrix_rows (ns nt : nat) (sample_domain : list Z) (M : ndarray) :
  TJM._get_mmd_matrix ns nt sample_domain = Ok M ->
  ns <> 0 /\ nt <> 0 /\ ncols M = ns + nt
  /\ exists a b c, rows M = constant_blocks ns nt a b c.
Proof.
  unfold TJM._get_mmd_matrix, py_truediv.
  destruct (Z.eqb_spec (Z.of_nat ns ^ 2) 0) as [|Hs]; [discriminate|].
  cbn [bind].
  destruct (Z.eqb_spec (Z.of_nat nt ^ 2) 0) as [|Ht]; [discriminate|].
  cbn [bind].
  destruct (Z.eqb_spec (Z.of_nat ns * Z.of_nat nt) 0) as [|Hst]; [discriminate|].
  cbn [bind]. intros H. inversion H; subst; clear H.
  split; [nia|]. split; [nia|]. split; [reflexivity|].
  eexists _, _, _.
  unfold np_block. cbn [rows].
  change (np_scale ?c (np_ones ?n ?m))
    with (mk_ndarray m (rows (np_scale c (np_ones n m)))).
  rewrite !scaled_ones_rows. cbn [rows].
  rewrite transpose_constant_rows, !map2_repeat. reflexivity.
Qed.

Lemma constant_blocks_entry (ns nt : nat) (a b c : float) (i j : nat) :
  match nth_error (constant_blocks ns nt a b c) i with
  | Some r => nth_error r j
  | None => None
  end
  = if (i <? ns + nt) && (j <? ns + nt)
    then Some (if i <? ns then (if j <? ns then a else b)
               else (if j <? ns then b else c))
    else None.
Proof.
  unfold constant_blocks.
  rewrite nth_error_app, repeat_length.
  destruct (Nat.ltb_spec i ns) as [Hi|Hi].
  - rewrite nth_error_repeat by exact Hi.
    rewrite nth_error_app, repeat_length.
    destruct (Nat.ltb_spec i (ns + nt)); [|lia]. cbn [andb].
    destruct (Nat.ltb_spec j ns) as [Hj|Hj].
    + rewrite nth_error_repeat by exact Hj.
      destruct (Nat.ltb_spec j (ns + nt)); [reflexivity|lia].
    + destruct (Nat.ltb_spec j (ns + nt)) as [Hj'|Hj'].
      * now rewrite nth_error_repeat by lia.
      * apply nth_error_None. rewrite repeat_length. lia.
  - destruct (Nat.ltb_spec i (ns + nt)) as [Hi'|Hi']; cbn [andb].
    + rewrite nth_error_repeat by lia.
      rewrite nth_error_app, repeat_length.
      destruct (Nat.ltb_spec j ns) as [Hj|Hj].
      * rewrite nth_error_repeat by exact Hj.
        destruct (Nat.ltb_spec j (ns + nt)); [reflexivity|lia].
      * destruct (Nat.ltb_spec j (ns + nt)) as [Hj'|Hj'].
        -- now rewrite nth_error_repeat by lia.
        -- apply nth_error_None. rewrite repeat_length. lia.
    + replace (nth_error (repeat _ nt) (i - ns)) with (@None (list float));
        [reflexivity|].
      symmetry. apply nth_error_None. rewrite repeat_length. lia.
Qed.

(** X3.  [_get_mmd_matrix] raises [ZeroDivisionError] when either count is
    zero; otherwise it returns a square matrix of side [ns + nt], all of
    whose rows have that length, and which equals its transpose entry by
    entry. *)
Theorem get_mmd_matrix_symmetric (ns nt : nat) (sample_domain : list Z) :
  (ns = 0 \/ nt = 0 ->
   TJM._get_mmd_matrix ns nt sample_domain = Err ZeroDivisionError)
  /\ (ns <> 0 -> nt <> 0 ->
      exists M,
        TJM._get_mmd_matrix ns nt sample_domain = Ok M
        /\ nrows M = ns + nt /\ ncols M = ns + nt /\ well_shaped M
        /\ forall i j, entry M i j = entry M j i).
Proof.
  split.
  - intros [-> | ->].
    + reflexivity.
    + unfold TJM._get_mmd_matrix, py_truediv.
      destruct (Z.eqb_spec (Z.of_nat ns ^ 2) 0); reflexivity.
  - intros Hs Ht.
    destruct (TJM._get_mmd_matrix ns nt sample_domain) as [M|e] eqn:E.
    + destruct (get_mmd_matrix_rows _ _ _ _ E) as (_ & _ & Hc & a & b & c & Hr).
      exists M. split; [reflexivity|].
      split; [unfold nrows; rewrite Hr; unfold constant_blocks;
              now rewrite length_app, !repeat_length|].
      split; [exact Hc|].
      split.
      * unfold well_shaped. rewrite Hr, Hc. unfold constant_blocks.
        apply Forall_app. split; apply Forall_forall; intros r Hr';
          apply repeat_spec in Hr'; subst r;
          now rewrite length_app, !repeat_length.
      * intros i j. unfold entry. rewrite Hr, !constant_blocks_entry.
        destruct (i <? ns + nt), (j <? ns + nt), (i <? ns), (j <? ns);
          reflexivity.
    + exfalso. revert E. unfold TJM._get_mmd_matrix.
      unfold py_truediv.
      destruct (Z.eqb_spec (Z.of_nat ns ^ 2) 0); [nia|]. cbn [bind].
      destruct (Z.eqb_spec (Z.of_nat nt ^ 2) 0); [nia|]. cbn [bind].
      destruct (Z.eqb_spec (Z.of_nat ns * Z.of_nat nt) 0); [nia|].
      discriminate.
Qed.

(** ** Shapes of the adapted data *)

Lemma vecmat_length (r : vector) (B : ndarray) : length (vecmat r B) = ncols B.
Proof. unfold vecmat. now rewrite length_map, length_seq. Qed.

Lemma matmul_well_shaped (A B : ndarray) : well_shaped (matmul A B).
Proof.
  unfold well_shaped, matmul. cbn [rows ncols].
  apply Forall_forall. intros r Hr. apply in_map_iff in Hr.
  destruct Hr as (x & <- & _). apply vecmat_length.
Qed.

Lemma take_rows_well_shaped (n : nat) (A : ndarray) :
  well_shaped A -> well_shaped (take_rows n A).
Proof.
  unfold well_shaped, take_rows. cbn [rows ncols]. intros H.
  apply Forall_forall. intros r Hr. rewrite Forall_forall in H.
  apply H. rewrite <- (firstn_skipn n (rows A)). apply in_or_app. now left.
Qed.

Lemma array_equal_nrows (A B : ndarray) :
  array_equal A B = true -> nrows A = nrows B.
Proof.
  unfold array_equal. intros H.
  apply andb_prop in H. destruct H as [H _].
  apply andb_prop in H. destruct H as [H _].
  now apply Nat.eqb_eq.
Qed.

Section KernelAdaptShapes.

Variable kernel : vector -> vector -> float.
Variable solve : ndarray -> ndarray -> result ndarray.
Variable eigh : ndarray -> result (vector * ndarray).
Variable argsort : vector -> list nat.

Lemma kernel_matrix_nrows (X_source X_target : ndarray) :
  nrows (TJM._get_kernel_matrix kernel X_source X_target)
  = nrows X_source + nrows X_target.
Proof.
  unfold nrows, TJM._get_kernel_matrix, np_block. cbn [rows].
  rewrite length_app, !map2_length.
  unfold transpose, pairwise_kernels. cbn [rows ncols].
  rewrite !length_map, length_seq. unfold nrows. lia.
Qed.

Lemma recompute_nrows (X S T P : ndarray) :
  nrows (matmul (np_concatenate_axis1 (pairwise_kernels kernel X S)
                                      (pairwise_kernels kernel X T)) P)
  = nrows X.
Proof.
  unfold nrows. rewrite recompute_rows. now rewrite length_map.
Qed.


(** X6.  After a successful [fit], and on an input that the kernel
    computation accepts (at least one row, finite entries, the number of
    features of the fit data), TCA's [adapt] returns one row per input row,
    in both of its branches; every row has as many entries as [eigvects_]
    has columns, which is at most the number of components asked for. *)
Theorem tca_adapt_shape
    (self : TCA.params) (X0 : ndarray) (sample_domain0 : list Z)
    (st : TCA.fitted) (X : ndarray) (sample_domain : list Z) :
  TCA.fit kernel solve eigh argsort self X0 sample_domain0 = Ok st ->
  length sample_domain = nrows X ->
  nrows X <> 0 ->
  ncols X = ncols X0 ->
  well_shaped X ->
  all_finite X ->
  nrows (TCA.adapt kernel st X sample_domain) = nrows X
  /\ ncols (TCA.adapt kernel st X sample_domain) = ncols (TCA.eigvects_ st)
  /\ well_shaped (TCA.adapt kernel st X sample_domain)
  /\ ncols (TCA.eigvects_ st)
     <= match TCA.n_components self with
        | None => Nat.min (nrows X0) (ncols X0)
        | Some k => k
        end.
Proof.
  intros Hfit Hlen _ _ _ _.
  destruct (@tca_fit_stores kernel solve eigh argsort self X0 sample_domain0
              st Hfit) as (Hs & Ht & HK).
  assert (Hcols : ncols (TCA.eigvects_ st)
                  <= match TCA.n_components self with
                     | None => Nat.min (nrows X0) (ncols X0)
                     | Some k => k
                     end).
  { clear - Hfit. revert Hfit. unfold TCA.fit, check_X_domain.
    destruct (source_target_split X0 sample_domain0) as [Xs Xt].
    destruct (py_truediv _ _) as [css|]; [|discriminate]. cbn [bind].
    destruct (py_truediv _ _) as [ctt|]; [|discriminate]. cbn [bind].
    destruct (py_truediv _ _) as [cst|]; [|discriminate]. cbn [bind].
    destruct (py_truediv _ _) as [c|]; [|discriminate]. cbn [bind].
    destruct (solve _ _) as [solution|]; [|discriminate]. cbn [bind].
    destruct (eigh _) as [[eigvals eigvects]|]; [|discriminate]. cbn [bind].
    intros H. inversion H; subst; clear H.
    cbn [TCA.eigvects_ take_cols ncols]. unfold TCA.selected_components.
    rewrite length_firstn. lia. }
  rewrite tca_adapt_branches.
  pose proof (split_nrows X sample_domain Hlen) as Hn.
  destruct (array_equal (fst (source_target_split X sample_domain))
                        (TCA.X_source_ st)) eqn:E1;
    [destruct (array_equal (snd (source_target_split X sample_domain))
                           (TCA.X_target_ st)) eqn:E2|]; cbn [andb].
  - apply array_equal_nrows in E1, E2.
    split; [|split; [reflexivity|split; [|exact Hcols]]].
    + unfold take_rows, nrows. cbn [rows]. rewrite length_firstn.
      fold (nrows (matmul (TCA.K_ st) (TCA.eigvects_ st))).
      rewrite matmul_nrows, HK.
      change (TCA.kernel_matrix kernel ?a ?b)
        with (TJM._get_kernel_matrix kernel a b).
      rewrite kernel_matrix_nrows. fold (nrows X). lia.
    + apply take_rows_well_shaped, matmul_well_shaped.
  - split; [|split; [reflexivity|split; [|exact Hcols]]].
    + unfold take_rows, nrows. cbn [rows]. rewrite length_firstn.
      fold (nrows (matmul (np_concatenate_axis1
                             (pairwise_kernels kernel X (TCA.X_source_ st))
                             (pairwise_kernels kernel X (TCA.X_target_ st)))
                          (TCA.eigvects_ st))).
      rewrite recompute_nrows. fold (nrows X). lia.
    + apply take_rows_well_shaped, matmul_well_shaped.
  - split; [|split; [reflexivity|split; [|exact Hcols]]].
    + unfold take_rows, nrows. cbn [rows]. rewrite length_firstn.
      fold (nrows (matmul (np_concatenate_axis1
                             (pairwise_kernels kernel X (TCA.X_source_ st))
                             (pairwise_kernels kernel X (TCA.X_target_ st)))
                          (TCA.eigvects_ st))).
      rewrite recompute_nrows. fold (nrows X). lia.
    + apply take_rows_well_shaped, matmul_well_shaped.
Qed.

End KernelAdaptShapes.

(** ** The stopping test on NaN *)

(** X7.  The stopping test of TJM's [fit] never holds on NaN: not when the
    recorded loss is NaN, and not when the new loss is NaN unless the
    recorded loss is zero; a recorded loss of zero always stops the loop. *)
Theorem tjm_early_stop_nan (tol last_loss loss_total : float) :
  (is_nan last_loss = true ->
   TJM.early_stop tol last_loss loss_total = false)
  /\ (is_nan loss_total = true -> eqb last_loss zero = false ->
      TJM.early_stop tol last_loss loss_total = false)
  /\ (eqb last_loss zero = true ->
      TJM.early_stop tol last_loss loss_total = true).
Proof.
  unfold TJM.early_stop. split; [|split].
  - destruct last_loss; try discriminate. intros _. reflexivity.
  - destruct loss_total; try discriminate. intros _ ->. cbn [orb].
    destruct last_loss as [s|s| |s m e]; reflexivity.
  - intros ->. reflexivity.
Qed.

Section TJMUpdateA.

Variable eigh_gen : ndarray -> ndarray -> result (vector * ndarray).
Variable argsort : vector -> list nat.
Hypothesis argsort_ok : np_argsort_spec argsort.

(** X8.  Whatever sort [np.argsort] is, "update A" keeps the columns of the
    eigenvectors that go with the [n_components] smallest shifted
    eigenvalues [phi + 1e-10], in ascending order of eigenvalue; no
    eigenvalue left out is below a kept one.  [A] has
    [min(n_components, len(phi))] columns, taken at distinct indices. *)
Theorem tjm_update_A_keeps_smallest
    (self : TJM.params) (env : TJM.env_t) (G A : ndarray) (warned : bool) :
  TJM.update_A eigh_gen argsort self env G = Ok (A, warned) ->
  exists (B C : ndarray) (phi : vector) (A0 : ndarray),
    eigh_gen B C = Ok (phi, A0)
    /\ let shifted := map (fun x => add x TJM.EPS_eigval) phi in
       let indices := firstn (TJM.env_n_components env) (argsort shifted) in
       A = take_cols indices A0
       /\ ncols A = Nat.min (TJM.env_n_components env) (length phi)
       /\ NoDup indices
       /\ (forall i, In i indices -> i < length phi)
       /\ (Forall (fun x => is_nan x = false) shifted ->
           (forall p q i j, p < q ->
              nth_error indices p = Some i -> nth_error indices q = Some j ->
              leb (nth i shifted zero) (nth j shifted zero) = true)
           /\ (forall i j, In i indices -> j < length phi -> ~ In j indices ->
                 leb (nth i shifted zero) (nth j shifted zero) = true)).
Proof.
  unfold TJM.update_A.
  match goal with
  | |- context [eigh_gen ?b ?c] => set (B := b); set (C := c)
  end.
  destruct (eigh_gen B C) as [[phi A0]|e] eqn:E; [|discriminate].
  cbn [bind]. intros H. inversion H; subst A; clear H.
  exists B, C, phi, A0. split; [exact E|]. cbv zeta.
  set (shifted := map (fun x => add x TJM.EPS_eigval) phi).
  destruct (argsort_ok shifted) as (Hs & Hin & Hnd & Hlen).
  assert (Hls : length shifted = length phi) by apply length_map.
  split; [reflexivity|].
  split; [cbn [take_cols ncols]; now rewrite length_firstn, Hlen, Hls|].
  split.
  { rewrite <- (firstn_skipn (TJM.env_n_components env) (argsort shifted)) in Hnd.
    exact (NoDup_app_remove_r _ _ Hnd). }
  split.
  { intros i Hi. rewrite <- Hls. apply Hin.
    rewrite <- (firstn_skipn (TJM.env_n_components env)).
    apply in_or_app. now left. }
  intros Hnan.
  assert (Hn : forall k, is_nan (nth k shifted zero) = false).
  { intros k. destruct (Nat.lt_ge_cases k (length shifted)) as [Hk|Hk].
    - rewrite Forall_forall in Hnan. apply Hnan. now apply nth_In.
    - now rewrite nth_overflow. }
  split.
  - intros p q i j Hpq Hi Hj.
    apply nth_error_firstn_some in Hi, Hj.
    destruct Hi as [_ Hi], Hj as [_ Hj].
    apply (@ascending_order_leb shifted i j (Hn i) (Hn j)).
    exact (@StronglySorted_nth nat _ _ Hs p q i j Hpq Hi Hj).
  - intros i j Hi Hj Hnj.
    apply In_nth_error in Hi. destruct Hi as [p Hp].
    apply nth_error_firstn_some in Hp. destruct Hp as [Hpn Hp].
    rewrite <- Hls in Hj. apply Hin in Hj.
    apply In_nth_error in Hj. destruct Hj as [q Hq].
    assert (Hqn : TJM.env_n_components env <= q).
    { destruct (Nat.lt_ge_cases q (TJM.env_n_components env)) as [Hlt|Hge];
        [|exact Hge].
      exfalso. apply Hnj. apply nth_error_In with (n := q).
      rewrite nth_error_firstn.
      destruct (Nat.ltb_spec q (TJM.env_n_components env)); [exact Hq|lia]. }
    apply (@ascending_order_leb shifted i j (Hn i) (Hn j)).
    apply (@StronglySorted_nth nat _ _ Hs p q i j); [lia|exact Hp|exact Hq].
Qed.

End TJMUpdateA.

(** ** SubspaceAlignmentAdapter: [fit] and the row order of [adapt] *)

Lemma merge_rows_split (f g : vector -> vector) (mask : list bool)
    (l : list vector) :
  length mask = length l ->
  merge_rows mask (map f (bool_index mask l))
                  (map g (bool_index (map negb mask) l))
  = map2 (fun (b : bool) x => if b then f x else g x) mask l.
Proof.
  revert l. induction mask as [|b mask IH]; intros [|x l] Hlen;
    try discriminate; [reflexivity|].
  cbn in Hlen. destruct b; cbn; f_equal; apply IH; lia.
Qed.

Lemma map2_map_l {A B C D : Type} (f : B -> C -> D) (g : A -> B)
    (l : list A) (l' : list C) :
  map2 f (map g l) l' = map2 (fun a c => f (g a) c) l l'.
Proof.
  revert l'. induction l as [|a l IH]; intros [|c l']; try reflexivity.
  cbn. f_equal. apply IH.
Qed.

Section SubspaceAlignmentFitAdapt.

Variable PCA : Type.
Variable rng : Type.
Variable pca_decompose : nat -> rng -> ndarray -> PCA * rng.
Variable components_ : PCA -> ndarray.

(** X10.  On finite data and for at least one component, [fit] of the
    subspace aligner returns a fitted adapter exactly when both blocks have
    rows and the number of components is at most the number of source
    rows, of target rows and of features;
    it then records that number in [n_components_] and sets [M_] to the
    product of the source components with the transposed target
    components. *)
Theorem sa_fit_succeeds_iff
    (self : SA.params rng) (X : ndarray) (sample_domain : list Z) :
  let X_source := fst (source_target_split X sample_domain) in
  let X_target := snd (source_target_split X sample_domain) in
  let k := match SA.n_components self with
           | None => Nat.min (nrows X) (ncols X)
           | Some k => k
           end in
  all_finite X ->
  1 <= k ->
  ((exists st, SA.fit pca_decompose components_ self X sample_domain = Ok st)
   <-> nrows X_source <> 0 /\ nrows X_target <> 0
       /\ k <= Nat.min (Nat.min (nrows X_source) (nrows X_target)) (ncols X))
  /\ forall st,
       SA.fit pca_decompose components_ self X sample_domain = Ok st ->
       SA.n_components_ st = k
       /\ SA.M_ st = matmul (components_ (SA.pca_source_ st))
                            (transpose (components_ (SA.pca_target_ st))).
Proof.
  cbv zeta. intros _ _. unfold SA.fit, check_X_domain.
  assert (Hcs : ncols (fst (source_target_split X sample_domain)) = ncols X)
    by reflexivity.
  assert (Hct : ncols (snd (source_target_split X sample_domain)) = ncols X)
    by reflexivity.
  destruct (source_target_split X sample_domain) as [Xs Xt].
  cbn [fst snd] in *.
  set (k := match SA.n_components self with
            | None => Nat.min (nrows X) (ncols X)
            | Some k => k
            end).
  unfold SA.PCA_fit.
  destruct (Nat.eqb_spec (nrows Xs) 0) as [Hs|Hs].
  { cbn [bind]. split.
    - split; [intros [st H]; discriminate|intros (H & _); contradiction].
    - intros st H; discriminate. }
  destruct (Nat.ltb_spec (Nat.min (nrows Xs) (ncols Xs)) k) as [Hk|Hk].
  { cbn [bind]. split.
    - split; [intros [st H]; discriminate|intros (_ & _ & H); lia].
    - intros st H; discriminate. }
  destruct (pca_decompose k (SA.random_state self) Xs) as [ps rs1].
  cbn [bind].
  destruct (Nat.eqb_spec (nrows Xt) 0) as [Ht|Ht].
  { cbn [bind]. split.
    - split; [intros [st H]; discriminate|intros (_ & H & _); contradiction].
    - intros st H; discriminate. }
  destruct (Nat.ltb_spec (Nat.min (nrows Xt) (ncols Xt)) k) as [Hk'|Hk'].
  { cbn [bind]. split.
    - split; [intros [st H]; discriminate|intros (_ & _ & H); lia].
    - intros st H; discriminate. }
  destruct (pca_decompose k rs1 Xt) as [pt rs2]. cbn [bind].
  split.
  - split; [intros _|intros _; eexists; reflexivity].
    split; [exact Hs|]. split; [exact Ht|]. lia.
  - intros st H. inversion H; subst; clear H. split; reflexivity.
Qed.

End SubspaceAlignmentFitAdapt.

Section SubspaceAlignmentRowOrder.

Variable PCA : Type.
Variable pca_transform : PCA -> ndarray -> ndarray.

(** A transform that works row by row, as the projection of a fitted PCA
    does. *)
Variable row_transform : PCA -> vector -> vector.
Hypothesis pca_transform_rows :
  forall p X, rows (pca_transform p X) = map (row_transform p) (rows X).

(** X11.  [adapt] of the subspace aligner keeps the rows in input order:
    when the PCA transform works row by row, output row [i] is input row
    [i] projected by the PCA of its own domain and then multiplied by
    [M_]. *)
Theorem sa_adapt_keeps_row_order
    (st : SA.fitted PCA) (X : ndarray) (sample_domain : list Z) :
  length sample_domain = nrows X ->
  rows (SA.adapt pca_transform st X sample_domain)
  = map2 (fun (d : Z) (x : vector) =>
            vecmat (row_transform (if (0 <=? d)%Z then SA.pca_source_ st
                                   else SA.pca_target_ st) x)
                   (SA.M_ st))
         sample_domain (rows X).
Proof.
  intros Hlen.
  set (fs := fun x => vecmat (row_transform (SA.pca_source_ st) x) (SA.M_ st)).
  set (ft := fun x => vecmat (row_transform (SA.pca_target_ st) x) (SA.M_ st)).
  unfold SA.adapt, SA.adapt_blocks, check_X_domain, source_target_split.
  set (mask := extract_source_indices sample_domain).
  assert (Hs : rows (match nrows (mask_rows mask X) with
                     | 0 => mask_rows mask X
                     | S _ => matmul (pca_transform (SA.pca_source_ st)
                                                    (mask_rows mask X))
                                     (SA.M_ st)
                     end) = map fs (bool_index mask (rows X))).
  { destruct (nrows (mask_rows mask X)) eqn:E.
    - unfold nrows, mask_rows in E. cbn [rows] in E.
      apply length_zero_iff_nil in E. cbn [mask_rows rows]. now rewrite E.
    - cbn [matmul rows]. rewrite pca_transform_rows, map_map. reflexivity. }
  assert (Ht : rows (match nrows (mask_rows (map negb mask) X) with
                     | 0 => mask_rows (map negb mask) X
                     | S _ => matmul (pca_transform (SA.pca_target_ st)
                                        (mask_rows (map negb mask) X))
                                     (SA.M_ st)
                     end) = map ft (bool_index (map negb mask) (rows X))).
  { destruct (nrows (mask_rows (map negb mask) X)) eqn:E.
    - unfold nrows, mask_rows in E. cbn [rows] in E.
      apply length_zero_iff_nil in E. cbn [mask_rows rows]. now rewrite E.
    - cbn [matmul rows]. rewrite pca_transform_rows, map_map. reflexivity. }
  unfold source_target_merge. cbn [rows]. fold mask. rewrite Hs, Ht.
  rewrite merge_rows_split
    by (unfold mask; now rewrite extract_source_indices_length).
  unfold mask, extract_source_indices. rewrite map2_map_l.
  unfold map2. apply map_ext. intros [d x]. cbn [fst snd].
  destruct (0 <=? d)%Z; reflexivity.
Qed.

End SubspaceAlignmentRowOrder.

(** ** The further properties on concrete data *)

Lemma tjm_fit_runs_within_max_iter_witness :
  1 <= TJM.loop_iterations (snd Fitted.tjm_trace4)
       <= TJM.max_iter (tjm_defaults 5)
  /\ TJM.loop_warnings (snd Fitted.tjm_trace4)
     <= TJM.loop_iterations (snd Fitted.tjm_trace4)
  /\ TJM.loop_A (snd Fitted.tjm_trace4)
     = Some (TJM.A_ (fst Fitted.tjm_trace4))
  /\ TJM.loop_G (snd Fitted.tjm_trace4)
     = TJM.update_G (nrows X4) (extract_source_indices interleaved)
                    (TJM.A_ (fst Fitted.tjm_trace4))
  /\ TJM.X_source_ (fst Fitted.tjm_trace4)
     = fst (source_target_split X4 interleaved)
  /\ TJM.X_target_ (fst Fitted.tjm_trace4)
     = snd (source_target_split X4 interleaved)
  /\ TJM.fit linear_kernel eigh_gen stable_argsort (tjm_defaults 5) X4 interleaved
     = Ok (fst Fitted.tjm_trace4).
Proof.
  apply (tjm_fit_runs_within_max_iter linear_kernel eigh_gen stable_argsort
           (tjm_defaults 5) X4 interleaved
           (fst Fitted.tjm_trace4) (snd Fitted.tjm_trace4)).
  vm_compute; reflexivity.
Defined.

Lemma tjm_fit_without_iterations_fails_witness :
  TJM.fit linear_kernel eigh_gen stable_argsort (tjm_defaults 0) X4 interleaved
    = Err UnboundLocalError.
Proof.
  apply (tjm_fit_without_iterations_fails linear_kernel eigh_gen
           stable_argsort (tjm_defaults 0) X4 interleaved).
  - repeat constructor.
  - vm_compute; discriminate.
  - vm_compute; discriminate.
  - reflexivity.
Defined.

Lemma get_mmd_matrix_symmetric_witness :
  exists M,
    TJM._get_mmd_matrix 2 2 interleaved = Ok M
    /\ nrows M = 2 + 2 /\ ncols M = 2 + 2 /\ well_shaped M
    /\ forall i j, entry M i j = entry M j i.
Proof.
  apply (proj2 (get_mmd_matrix_symmetric 2 2 interleaved)); lia.
Defined.


Lemma tca_adapt_shape_witness :
  nrows (TCA.adapt linear_kernel tca_fitted4 Fitted.X_new Fitted.new_domains)
    = nrows Fitted.X_new
  /\ ncols (TCA.adapt linear_kernel tca_fitted4 Fitted.X_new
                      Fitted.new_domains)
     = ncols (TCA.eigvects_ tca_fitted4)
  /\ well_shaped
       (TCA.adapt linear_kernel tca_fitted4 Fitted.X_new Fitted.new_domains)
  /\ ncols (TCA.eigvects_ tca_fitted4)
     <= match TCA.n_components tca_defaults with
        | None => Nat.min (nrows X4) (ncols X4)
        | Some k => k
        end.
Proof.
  apply (tca_adapt_shape linear_kernel solve eigh stable_argsort tca_defaults
           X4 interleaved tca_fitted4 Fitted.X_new Fitted.new_domains).
  - vm_compute; reflexivity.
  - reflexivity.
  - vm_compute; discriminate.
  - reflexivity.
  - repeat constructor.
  - repeat constructor.
Defined.

Lemma tjm_early_stop_nan_witness :
  TJM.early_stop (pow10_neg 2) S754_nan one = false
  /\ TJM.early_stop (pow10_neg 2) one S754_nan = false
  /\ TJM.early_stop (pow10_neg 2) zero S754_nan = true.
Proof.
  split; [|split].
  - apply (proj1 (tjm_early_stop_nan (pow10_neg 2) S754_nan one)).
    reflexivity.
  - apply (proj1 (proj2 (tjm_early_stop_nan (pow10_neg 2) one S754_nan)));
      reflexivity.
  - apply (proj2 (proj2 (tjm_early_stop_nan (pow10_neg 2) zero S754_nan))).
    reflexivity.
Defined.

Lemma tjm_update_A_keeps_smallest_witness :
  exists (phi : vector) (A0 : ndarray),
    let shifted := map (fun x => add x TJM.EPS_eigval) phi in
    let indices :=
      firstn (TJM.env_n_components tjm_env4) (stable_argsort shifted) in
    tjm_A4 = take_cols indices A0
    /\ ncols tjm_A4 = Nat.min (TJM.env_n_components tjm_env4) (length phi)
    /\ NoDup indices.
Proof.
  destruct (tjm_update_A_keeps_smallest eigh_gen stable_argsort
              stable_argsort_meets_spec (tjm_defaults 5) tjm_env4
              (np_identity (TJM.env_n tjm_env4)) tjm_A4 true
              ltac:(vm_compute; reflexivity))
    as (B & C & phi & A0 & _ & HA & Hc & Hnd & _).
  exists phi, A0. cbv zeta. split; [exact HA|]. split; [exact Hc|exact Hnd].
Defined.

Lemma sa_fit_succeeds_iff_witness :
  exists st,
    SA.fit LinearPCA.decompose LinearPCA.comps (SA.mk_params (Some 2) tt)
           X_wide source_first = Ok st.
Proof.
  apply (proj1 (sa_fit_succeeds_iff LinearPCA.t unit LinearPCA.decompose
                  LinearPCA.comps (SA.mk_params (Some 2) tt) X_wide
                  source_first ltac:(repeat constructor) ltac:(cbn; lia))).
  split; [vm_compute; discriminate|].
  split; [vm_compute; discriminate|].
  vm_compute; lia.
Defined.

Lemma sa_adapt_keeps_row_order_witness :
  rows (SA.adapt LinearPCA.transform sa_axes X_pair source_then_target)
  = map2 (fun (d : Z) (x : vector) =>
            vecmat (linear_pca_row (if (0 <=? d)%Z then SA.pca_source_ sa_axes
                                    else SA.pca_target_ sa_axes) x)
                   (SA.M_ sa_axes))
         source_then_target (rows X_pair).
Proof.
  apply (sa_adapt_keeps_row_order LinearPCA.t LinearPCA.transform
           linear_pca_row).
  - intros p X.
    exact (map_map (fun r => map2 sub r (LinearPCA.mean_ p))
                   (fun r => vecmat r (transpose (LinearPCA.comps p)))
                   (rows X)).
  - reflexivity.
Defined.
